(** * Text-analysis pipeline of [app.py]

    A shallow embedding of the pipeline
      fetch_text_from_url -> preprocess_text -> segment_and_count -> chart builders
    together with the properties its specification states about it.

    A Python [str] is a sequence of Unicode code points, so a text is a
    list of code points ([N]); a [set] of strings is a [gset]; a
    [collections.Counter] is an insertion-ordered dictionary, modelled as an
    association list whose order is the insertion order. *)

From Stdlib Require Import NArith Ascii String.
From stdpp Require Import base decidable numbers option list gmap sorting pretty.

Set Warnings "-register-all".

Open Scope N_scope.

(** ** Texts *)

Abbreviation text := (list N).

(** Code points of a source literal, read from its UTF-8 bytes.  [acc] holds
    the bits of a code point whose continuation bytes are still to come. *)
Definition is_continuation (b : N) : bool := (0x80 <=? b) && (b <? 0xC0).

Definition next_is_continuation (s : string) : bool :=
  match s with
  | EmptyString => false
  | String a _ => is_continuation (N_of_ascii a)
  end.

Fixpoint lit_from (acc : N) (s : string) : text :=
  match s with
  | EmptyString => []
  | String a s' =>
      let b := N_of_ascii a in
      if b <? 0x80 then b :: lit_from 0 s'
      else if is_continuation b then
        let acc' := acc * 64 + (b - 0x80) in
        if next_is_continuation s' then lit_from acc' s' else acc' :: lit_from 0 s'
      else if b <? 0xE0 then lit_from (b - 0xC0) s'
      else if b <? 0xF0 then lit_from (b - 0xE0) s'
      else lit_from (b - 0xF0) s'
  end.

Definition lit (s : string) : text := lit_from 0 s.

(** ** Character classes *)

Definition space : N := 0x20.
Definition newline : N := 0x0A.

(** The range [\u4e00-\u9fff] of the pattern. *)
Definition is_cjk (c : N) : bool := (0x4e00 <=? c) && (c <=? 0x9fff).

(** The ranges [A-Za-z] of the pattern. *)
Definition is_ascii_letter (c : N) : bool :=
  (0x41 <=? c) && (c <=? 0x5a) || (0x61 <=? c) && (c <=? 0x7a).

(** The characters for which [str.isspace] holds; they are also the
    characters [\s] matches in a [str] pattern and the ones [str.strip]
    removes. *)
Definition isspace (c : N) : bool :=
  (0x09 <=? c) && (c <=? 0x0D) || (0x1C <=? c) && (c <=? 0x20)
  || (c =? 0x85) || (c =? 0xA0) || (c =? 0x1680)
  || (0x2000 <=? c) && (c <=? 0x200A)
  || (c =? 0x2028) || (c =? 0x2029) || (c =? 0x202F) || (c =? 0x205F)
  || (c =? 0x3000).

(** ** Regular-expression substitutions and [str.strip] *)

(** [re.sub(p, ' ', text)] for a pattern [p] that matches exactly one
    character: every matching character is replaced. *)
Definition re_sub_char (p : N → bool) (repl : N) (t : text) : text :=
  map (λ c, if p c then repl else c) t.

(** [re.sub(p+, ' ', text)]: every maximal run of matching characters is
    replaced by one [repl].  [in_run] tells that the previous character
    belonged to a run that has been replaced already. *)
Fixpoint re_sub_runs_from (p : N → bool) (repl : N) (in_run : bool) (t : text) : text :=
  match t with
  | [] => []
  | c :: t' =>
      if p c then
        if in_run then re_sub_runs_from p repl true t'
        else repl :: re_sub_runs_from p repl true t'
      else c :: re_sub_runs_from p repl false t'
  end.

Definition re_sub_runs (p : N → bool) (repl : N) (t : text) : text :=
  re_sub_runs_from p repl false t.

Fixpoint lstrip (t : text) : text :=
  match t with
  | [] => []
  | c :: t' => if isspace c then lstrip t' else t
  end.

Fixpoint rstrip (t : text) : text :=
  match t with
  | [] => []
  | c :: t' =>
      match rstrip t' with
      | [] => if isspace c then [] else [c]
      | r => c :: r
      end
  end.

Definition strip (t : text) : text := lstrip (rstrip t).

(** ** preprocess_text *)

(** The character class [[<.*?>]]: inside brackets the five characters
    stand for themselves. *)
Definition tag_class (c : N) : bool :=
  bool_decide (c ∈ lit "<.*?>").

(** The pattern [[<.*?>]|[^\u4e00-\u9fffA-Za-z]]. *)
Definition non_word_pattern (c : N) : bool :=
  tag_class c || negb (is_cjk c || is_ascii_letter c).

Definition preprocess_text (t : text) : text :=
  let t := re_sub_char non_word_pattern space t in
  strip (re_sub_runs isspace space t).

(** ** Normal forms of the normalizer *)

(** What [preprocess_text] keeps: ideographs and ASCII letters. *)
Definition is_word_char (c : N) : bool := is_cjk c || is_ascii_letter c.

Definition in_charset (c : N) : Prop := is_word_char c = true ∨ c = space.

(** Every whitespace character of [t] is a space, and no two are adjacent;
    [after_space] tells that the character before [t] was a space. *)
Fixpoint single_spaced (after_space : bool) (t : text) : bool :=
  match t with
  | [] => true
  | c :: t' =>
      if isspace c then negb after_space && (c =? space) && single_spaced true t'
      else single_spaced false t'
  end.

Definition no_space_at (o : option N) : Prop :=
  ∀ c, o = Some c → isspace c = false.

Record normalized (t : text) : Prop := {
  norm_chars : Forall in_charset t;
  norm_single : single_spaced false t = true;
  norm_head : no_space_at (head t);
  norm_last : no_space_at (last t)
}.

Ltac bool_to_Prop :=
  repeat match goal with
    | H : _ && _ = true |- _ => apply andb_true_iff in H; destruct H
    | H : _ || _ = true |- _ => apply orb_true_iff in H; destruct H
    | H : _ || _ = false |- _ => apply orb_false_iff in H; destruct H
    | H : negb _ = true |- _ => apply negb_true_iff in H
    | H : negb _ = false |- _ => apply negb_false_iff in H
    | H : (_ <=? _) = true |- _ => apply N.leb_le in H
    | H : (_ <? _) = true |- _ => apply N.ltb_lt in H
    | H : (_ =? _) = true |- _ => apply N.eqb_eq in H
    | H : (_ =? _) = false |- _ => apply N.eqb_neq in H
    end.

(** ** fetch_text_from_url *)

(** The calls of [requests] and the exceptions they raise.  The function
    runs against a server, which answers a request with a response or with
    a failure of the connection; the requests sent are logged.  A request
    holds the headers the program gives; a response holds its Location
    header when it has one. *)
Record Request := {
  req_method : text;
  req_url : text;
  req_headers : list (text * text)
}.

Record Response := {
  status_code : N;
  content : list N;
  encoding : option text;
  location : option text
}.

(** The exceptions of the program: those of [requests], and those of the
    later stages ([open], the chart libraries and the display). *)
Inductive exn :=
  | ConnectionError
  | HTTPError (status : N)
  | MissingSchema
  | InvalidURL
  | InvalidSchema
  | TooManyRedirects
  | FileNotFoundError
  | OSError
  | ValueError
  | DisplayError.

Definition server := Request → exn + Response.

(** Computations that may raise and that log the requests they send. *)
Definition io (A : Type) : Type := list Request → (exn + A) * list Request.

#[export] Instance io_ret : MRet io := λ A a log, (inr a, log).

Definition raise {A} (e : exn) : io A := λ log, (inl e, log).

#[export] Instance io_bind : MBind io := λ A B k m log,
  match m log with
  | (inl e, log') => (inl e, log')
  | (inr a, log') => k a log'
  end.

(** [str.lower] on the ASCII letters, which is all that the test of a
    prefix made of ASCII characters needs. *)
Definition ascii_lower (c : N) : N :=
  if (0x41 <=? c) && (c <=? 0x5A) then c + 0x20 else c.

Fixpoint startswith (t prefix : text) : bool :=
  match prefix, t with
  | [], _ => true
  | p :: prefix', c :: t' => (c =? p) && startswith t' prefix'
  | _ :: _, [] => false
  end.

(** [Session.get_adapter]: a session has adapters for the prefixes https://
    and http://; for another URL it raises [InvalidSchema]. *)
Definition get_adapter (url : text) : bool :=
  let url := map ascii_lower url in
  startswith url (lit "https://") || startswith url (lit "http://").

Definition REDIRECT_STATI : list N := [301; 302; 303; 307; 308].

Definition DEFAULT_REDIRECT_LIMIT : nat := 30.

(** [Response.is_redirect] *)
Definition is_redirect (r : Response) : bool :=
  bool_decide (is_Some (location r)) && bool_decide (status_code r ∈ REDIRECT_STATI).

(** [Session.get_redirect_target] with the test [while url] of the loop
    that follows redirects: an empty Location is not followed. *)
Definition get_redirect_target (r : Response) : option text :=
  if is_redirect r then
    match location r with
    | Some l => if decide (l = []) then None else Some l
    | None => None
    end
  else None.

(** [Session.send] with [Session.resolve_redirects]: the request is sent, and
    while the response is a redirect the same request is sent to the URL the
    Location header gives; [redirect_url] resolves the header against the URL
    of the request.  A response that is a redirect after
    [DEFAULT_REDIRECT_LIMIT] redirects were followed raises. *)
Fixpoint send (redirect_url : text → text → text) (srv : server)
    (redirects_left : nat) (req : Request) : io Response :=
  λ log,
  if get_adapter (req_url req) then
    let log := log ++ [req] in
    match srv req with
    | inl e => (inl e, log)
    | inr r =>
        match get_redirect_target r with
        | None => (inr r, log)
        | Some l =>
            match redirects_left with
            | O => (inl TooManyRedirects, log)
            | S n =>
                send redirect_url srv n
                  {| req_method := req_method req;
                     req_url := redirect_url (req_url req) l;
                     req_headers := req_headers req |} log
            end
        end
    end
  else (inl InvalidSchema, log).

(** [requests.get(url, headers=headers)]: [prepare_url] is the check of the
    URL made before anything is sent, which raises [MissingSchema] or
    [InvalidURL] or returns the URL to request. *)
Definition requests_get
    (prepare_url : text → exn + text) (redirect_url : text → text → text)
    (srv : server) (url : text) (headers : list (text * text)) : io Response :=
  λ log,
  match prepare_url url with
  | inl e => (inl e, log)
  | inr u =>
      send redirect_url srv DEFAULT_REDIRECT_LIMIT
        {| req_method := lit "GET"; req_url := u; req_headers := headers |} log
  end.

(** [Response.raise_for_status]: client errors (4xx) and server errors
    (5xx) raise, every other status passes. *)
Definition raise_for_status (r : Response) : io unit :=
  if (400 <=? status_code r) && (status_code r <? 600)
  then raise (HTTPError (status_code r)) else mret tt.

Definition set_encoding (r : Response) (e : text) : Response :=
  {| status_code := status_code r; content := content r; encoding := Some e;
     location := location r |}.

(** [Response.text]: the content decoded with the encoding the response
    holds; [decode] is the codec lookup of the interpreter. *)
Definition response_text (decode : option text → list N → text) (r : Response) : text :=
  decode (encoding r) (content r).

(** The classes of the strings in the tree [BeautifulSoup] builds.  The
    parser gives a string its class: [Script], [Stylesheet] and
    [TemplateString] for the text inside script, style and template elements,
    [RubyTextString] and [RubyParenthesisString] inside rt and rp, the
    classes of markup for comments, declarations, doctypes and processing
    instructions, [CData] for CDATA sections and [NavigableString] for the
    other text. *)
Inductive string_class :=
  | NavigableString | CData
  | Comment | Declaration | Doctype | ProcessingInstruction
  | Script | Stylesheet | TemplateString
  | RubyTextString | RubyParenthesisString.

#[export] Instance string_class_eq_dec : EqDecision string_class.
Proof. solve_decision. Defined.

Inductive node :=
  | Str (class : string_class) (s : text)
  | Tag (name : text) (children : list node).

(** [Tag.interesting_string_types] of a tag that is no container of special
    strings, as body is: the classes whose strings [get_text] returns.  The
    test is on the class itself, not on its subclasses. *)
Definition interesting_string_types : list string_class := [NavigableString; CData].

(** [soup.find(name)]: the first tag of that name, in document order. *)
Fixpoint find_in (name : text) (n : node) : option node :=
  match n with
  | Tag nm children =>
      if decide (nm = name) then Some n
      else (fix go (l : list node) : option node :=
              match l with
              | [] => None
              | x :: l' =>
                  match find_in name x with
                  | Some r => Some r
                  | None => go l'
                  end
              end) children
  | _ => None
  end.

Fixpoint find (name : text) (soup : list node) : option node :=
  match soup with
  | [] => None
  | x :: soup' =>
      match find_in name x with
      | Some r => Some r
      | None => find name soup'
      end
  end.

(** The strings under a node, in document order. *)
Fixpoint strings_of (n : node) : list text :=
  match n with
  | Str class s => if decide (class ∈ interesting_string_types) then [s] else []
  | Tag _ children => concat (map strings_of children)
  end.

(** [tag._all_strings()]: the strings among the descendants of the tag. *)
Definition descendant_strings (n : node) : list text :=
  match n with
  | Tag _ children => concat (map strings_of children)
  | _ => []
  end.

(** [separator.join(pieces)] *)
Fixpoint join (separator : text) (pieces : list text) : text :=
  match pieces with
  | [] => []
  | [p] => p
  | p :: ps => p ++ separator ++ join separator ps
  end.

(** [tag.get_text(strip=True, separator=sep)]: each string is stripped, and
    a string that is empty after stripping is skipped. *)
Definition get_text_strip (separator : text) (n : node) : text :=
  join separator (filter (λ s, s ≠ []) (map strip (descendant_strings n))).

Definition user_agent : text :=
  lit "Mozilla/5.0 (Windows NT 10.0; Win64; x64) AppleWebKit/537.36 (KHTML, like Gecko) Chrome/91.0.4472.124 Safari/537.36".

Definition headers : list (text * text) := [(lit "User-Agent", user_agent)].

(** The last line of [fetch_text_from_url], on the parsed document. *)
Definition body_text (soup : list node) : text :=
  match find (lit "body") soup with
  | Some body => get_text_strip [newline] body
  | None => []
  end.

Definition fetch_text_from_url
    (prepare_url : text → exn + text) (redirect_url : text → text → text)
    (srv : server) (decode : option text → list N → text)
    (html_parser : text → list node) (url : text) : io text :=
  response ← requests_get prepare_url redirect_url srv url headers;
  _ ← raise_for_status response;
  let response := set_encoding response (lit "utf-8") in
  let soup := html_parser (response_text decode response) in
  mret (body_text soup).

(** ** segment_and_count *)

(** A [Counter]: keys in the order of their first insertion, each with its
    count. *)
Abbreviation counter := (list (text * nat)).

(** [counter[w] += 1], a new key going to the end. *)
Fixpoint counter_incr (w : text) (m : counter) : counter :=
  match m with
  | [] => [(w, 1%nat)]
  | (k, n) :: m' =>
      if decide (k = w) then (k, S n) :: m' else (k, n) :: counter_incr w m'
  end.

(** [Counter(words)] *)
Definition Counter (words : list text) : counter :=
  foldl (λ m w, counter_incr w m) [] words.

(** [segment_and_count]; [cut] is [jieba.cut], the sequence of the words it
    yields. *)
Definition segment_and_count
    (cut : text → list text) (t : text) (stopwords : gset text) : counter :=
  let words := filter (λ word, strip word ≠ [] ∧ word ∉ stopwords) (cut t) in
  Counter words.

(** ** most_common *)

(** [sorted(items, key=itemgetter(1), reverse=True)], a stable sort: an item
    goes before the first item whose count is not larger than its own, so
    that items of equal count keep their order. *)
Fixpoint insert_desc (x : text * nat) (l : counter) : counter :=
  match l with
  | [] => [x]
  | y :: l' => if decide (y.2 ≤ x.2)%nat then x :: l else y :: insert_desc x l'
  end.

Definition sorted_desc (m : counter) : counter := foldr insert_desc [] m.

(** [counter.most_common(n)], that is [heapq.nlargest(n, items, key=count)],
    which is [sorted(items, key=count, reverse=True)[:n]]. *)
Definition most_common (n : nat) (m : counter) : counter :=
  take n (sorted_desc m).

(** ** Chart builders *)

Record DataFrame := {
  df_columns : list text;
  df_rows : counter
}.

(** The chart objects, as the library calls that build them. *)
Inductive figure :=
  | px_bar (df : DataFrame) (x y : text) (orientation : option text) (title : text)
  | px_pie (df : DataFrame) (values names : text) (title : text)
  | px_line (df : DataFrame) (x y : text) (title : text)
  | px_scatter (df : DataFrame) (x y size : text) (title : text)
  | px_line_polar (r : list nat) (theta : list text) (line_close : bool) (title : text)
  | update_traces (fig : figure) (fill : text) (marker_size : nat)
  | alt_area (df : DataFrame) (opacity_percent : nat) (x y : text) (title : text)
             (width height : nat).

Definition word_frame (rows : counter) : DataFrame :=
  {| df_columns := [lit "词语"; lit "频率"]; df_rows := rows |}.

(** The dictionary of [create_plotly_chart] once its five charts are
    built on the frame [df]. *)
Definition chart_mapping (df : DataFrame) : gmap text figure :=
  list_to_map
    [ (lit "垂直条形图", px_bar df (lit "词语") (lit "频率") None (lit "垂直条形图"));
      (lit "水平条形图", px_bar df (lit "频率") (lit "词语") (Some (lit "h")) (lit "水平条形图"));
      (lit "饼图", px_pie df (lit "频率") (lit "词语") (lit "饼图"));
      (lit "折线图", px_line df (lit "词语") (lit "频率") (lit "折线图"));
      (lit "散点图", px_scatter df (lit "词语") (lit "频率") (lit "频率") (lit "散点图")) ].

(** Computations that may raise. *)
Definition exc (A : Type) : Type := (exn + A)%type.

#[export] Instance exc_ret : MRet exc := λ A a, inr a.

#[export] Instance exc_bind : MBind exc := λ A B k m,
  match m with
  | inl e => inl e
  | inr a => k a
  end.

(** A call of plotly express returns the chart it describes, except that
    the scatter chart, whose points are sized by a column, raises
    [ValueError] for a frame without rows. *)
Definition px (fig : figure) : exc figure :=
  match fig with
  | px_scatter df _ _ _ _ => if decide (df_rows df = []) then inl ValueError else inr fig
  | _ => inr fig
  end.

(** The five charts of the dictionary are built, in its order, before the
    chart type is looked up. *)
Definition create_plotly_chart
    (chart_type : text) (word_counts : counter) (top_n : nat) : exc (option figure) :=
  let df := word_frame (most_common top_n word_counts) in
  bar ← px (px_bar df (lit "词语") (lit "频率") None (lit "垂直条形图"));
  barh ← px (px_bar df (lit "频率") (lit "词语") (Some (lit "h")) (lit "水平条形图"));
  pie ← px (px_pie df (lit "频率") (lit "词语") (lit "饼图"));
  line ← px (px_line df (lit "词语") (lit "频率") (lit "折线图"));
  scatter ← px (px_scatter df (lit "词语") (lit "频率") (lit "频率") (lit "散点图"));
  let chart_mapping : gmap text figure :=
    list_to_map
      [ (lit "垂直条形图", bar); (lit "水平条形图", barh); (lit "饼图", pie);
        (lit "折线图", line); (lit "散点图", scatter) ] in
  mret (chart_mapping !! chart_type).

Definition create_plotly_radar_chart (word_counts : counter) (top_n : nat) : option figure :=
  let top_words := most_common top_n word_counts in
  match top_words with
  | [] => None
  | _ =>
      let words := map fst top_words in
      let counts := map snd top_words in
      let fig := px_line_polar counts words true (lit "雷达图") in
      Some (update_traces fig (lit "toself") 5)
  end.

Definition create_altair_chart (word_counts : counter) (top_n : nat) : figure :=
  let df := word_frame (most_common top_n word_counts) in
  alt_area df 50 (lit "词语:N") (lit "频率:Q") (lit "面积图") 600 400.

(** [generate_word_cloud]: [generate_from_frequencies] raises [ValueError]
    when there is no word; the font file is read after that, and [font] tells
    whether it can be.  The image stands for the frequencies it draws. *)
Definition generate_word_cloud (font : bool) (word_counts : counter) : exc counter :=
  if decide (word_counts = []) then inl ValueError
  else if font then mret word_counts else inl OSError.

(** The part of [main] that follows the counting: the listing of the 20 most
    frequent words and the chart chosen by [chart_type].  A [shown] is what
    is handed to the display: the image of [render_word_cloud], the chart of
    [st.altair_chart], the argument of [st.plotly_chart]. *)
Inductive shown :=
  | word_cloud (frequencies : counter)
  | altair_chart (chart : figure)
  | plotly_chart (chart : option figure).

Definition render_word_cloud (font : bool) (word_counts : counter) : exc shown :=
  buf ← generate_word_cloud font word_counts;
  mret (word_cloud buf).

Definition main_listing (word_counts : counter) : counter := most_common 20 word_counts.

Definition main_chart (font : bool) (chart_type : text) (word_counts : counter) : exc shown :=
  if decide (chart_type = lit "词云") then render_word_cloud font word_counts
  else if decide (chart_type = lit "面积图") then
    mret (altair_chart (create_altair_chart word_counts 20))
  else if decide (chart_type = lit "雷达图") then
    mret (plotly_chart (create_plotly_radar_chart word_counts 10))
  else
    chart ← create_plotly_chart chart_type word_counts 20;
    mret (plotly_chart chart).

(** The display of what was built: [st.plotly_chart] raises when it is
    given [None]. *)
Definition st_display (c : shown) : option exn :=
  match c with
  | plotly_chart None => Some DisplayError
  | _ => None
  end.

(** The chart types [main] offers in its select box. *)
Definition chart_types : list text :=
  [lit "词云"; lit "垂直条形图"; lit "水平条形图"; lit "饼图"; lit "折线图";
   lit "散点图"; lit "雷达图"; lit "面积图"].

(** ** main *)

(** The calls of [streamlit] that [main] makes, in their order. *)
Inductive st :=
  | st_title (body : text)
  | st_text_input (label : text)
  | st_sidebar_selectbox (label : text) (options : list text)
  | st_warning (body : text)
  | st_button (label : text)
  | st_spinner (label : text)
  | st_write (body : text)
  | st_chart (c : shown).

(** The words counted by [main] for the text of the page; [stopwords_txt]
    holds the lines of the stopword file. *)
Definition main_word_counts
    (cut : text → list text) (stopwords_txt : list text) (t : text) : counter :=
  let processed_text := preprocess_text t in
  let stopwords : gset text := list_to_set (strip <$> stopwords_txt) in
  segment_and_count cut processed_text stopwords.

(** The line [f"{word}: {count}"]. *)
Definition listing_line (entry : text * nat) : text :=
  entry.1 ++ lit ": " ++ lit (pretty entry.2).

(** [main]: [url], [chart_type] and [button] are what the text input, the
    select box and the button return; [stopwords_txt] holds the lines of the
    stopword file, or nothing when the file cannot be opened, and [font]
    tells whether the font file can be read.  The result holds the calls of
    [streamlit] that returned, the exception that ended the run if there was
    one, and the log of the requests. *)
Definition main
    (prepare_url : text → exn + text) (redirect_url : text → text → text)
    (srv : server) (decode : option text → list N → text)
    (html_parser : text → list node) (cut : text → list text)
    (stopwords_txt : option (list text)) (font : bool)
    (url chart_type : text) (button : bool)
    (log : list Request) : list st * option exn * list Request :=
  let page :=
    [st_title (lit "文章URL文本分析工具");
     st_text_input (lit "请输入文章的URL:");
     st_sidebar_selectbox (lit "选择图表类型") chart_types] in
  if decide (url = []) then
    (page ++ [st_warning (lit "请输入有效的URL以进行分析！")], None, log)
  else if button then
    let page := page ++ [st_button (lit "提交"); st_spinner (lit "正在处理...")] in
    match fetch_text_from_url prepare_url redirect_url srv decode html_parser url log with
    | (inl e, log') => (page, Some e, log')
    | (inr t, log') =>
        match stopwords_txt with
        | None => (page, Some FileNotFoundError, log')
        | Some lines =>
            let word_counts := main_word_counts cut lines t in
            let page :=
              page ++ [st_write (lit "词频最高的20个词：")]
                   ++ (st_write ∘ listing_line <$> most_common 20 word_counts) in
            match main_chart font chart_type word_counts with
            | inl e => (page, Some e, log')
            | inr c =>
                match st_display c with
                | Some e => (page, Some e, log')
                | None => (page ++ [st_chart c], None, log')
                end
            end
        end
    end
  else (page ++ [st_button (lit "提交")], None, log).

(** ** Outcomes of the requests *)

(** How [send], started with the request [req] and allowed [limit]
    redirects, ended with the result [res] after it sent the requests [sent]:
    nothing was sent to a URL without adapter; or the last request failed; or
    its response is a redirect that is not followed, because the limit is
    reached or because the next URL has no adapter; or its response is no
    redirect and is the result. *)
Definition send_outcome (redirect_url : text → text → text) (srv : server)
    (limit : nat) (req : Request) (sent : list Request) (res : exn + Response) : Prop :=
  (sent = [] ∧ res = inl InvalidSchema ∧ get_adapter (req_url req) = false) ∨
  ∃ q, last sent = Some q ∧
    ((∃ e, srv q = inl e ∧ res = inl e) ∨
     (∃ r l, srv q = inr r ∧ get_redirect_target r = Some l ∧
        ((res = inl TooManyRedirects ∧ length sent = S limit) ∨
         (res = inl InvalidSchema ∧ get_adapter (redirect_url (req_url q) l) = false))) ∨
     (∃ r, srv q = inr r ∧ get_redirect_target r = None ∧ res = inr r)).

(** ** Notions used to state the properties *)

(** Position of the first occurrence of [w] among the yielded words (the
    length of the list when there is none). *)
Fixpoint first_index (w : text) (ws : list text) : nat :=
  match ws with
  | [] => 0%nat
  | x :: ws' => if decide (x = w) then 0%nat else S (first_index w ws')
  end.

Definition occurrences (w : text) (ws : list text) : nat :=
  length (filter (λ x, x = w) ws).

(** The words in the order of their first occurrence, each with the number
    of its occurrences. *)
Fixpoint tally (ws : list text) : counter :=
  match ws with
  | [] => []
  | w :: ws' => (w, S (occurrences w ws')) :: filter (λ kv, kv.1 ≠ w) (tally ws')
  end.

(** [a] ranks before [b]: a larger count, or the same count and an earlier
    first occurrence among [ws]. *)
Definition ranks_before (ws : list text) (a b : text * nat) : Prop :=
  (b.2 < a.2)%nat ∨ (a.2 = b.2 ∧ (first_index a.1 ws < first_index b.1 ws)%nat).

(** The nodes of a subtree in document order, the root first. *)
Fixpoint subtree (n : node) : list node :=
  n :: match n with
       | Tag _ children => concat (map subtree children)
       | _ => []
       end.

Definition nodes_of (soup : list node) : list node := concat (map subtree soup).

Definition descendants (n : node) : list node :=
  match n with
  | Tag _ children => concat (map subtree children)
  | _ => []
  end.

Definition tag_named (name : text) (n : node) : bool :=
  match n with
  | Tag nm _ => bool_decide (nm = name)
  | _ => false
  end.

(** The text of a string that counts as text for [get_text]: a string of
    class [NavigableString] or [CData]. *)
Definition text_of (n : node) : option text :=
  match n with
  | Str class s => if decide (class ∈ interesting_string_types) then Some s else None
  | Tag _ _ => None
  end.

(** The text of a text node of the document: every string that is not
    markup (a comment, a declaration, a doctype, a processing instruction),
    the text of script and style elements included. *)
Definition dom_text_of (n : node) : option text :=
  match n with
  | Str class s =>
      if decide (class ∈ [Comment; Declaration; Doctype; ProcessingInstruction])
      then None else Some s
  | Tag _ _ => None
  end.

(** The Extractor as the specification words it: every text node under
    the body, trimmed, with a line break between every two of them. *)
Definition body_text_as_worded (soup : list node) : text :=
  match head (filter (λ x, tag_named (lit "body") x) (nodes_of soup)) with
  | Some body => join [newline] (map strip (omap dom_text_of (descendants body)))
  | None => []
  end.

(** A segmenter without a dictionary, which yields every character as a word
    of its own; [jieba.cut] does so outside the blocks it looks up.  It
    serves as an instance of the segmenter where one is needed. *)
Definition cut_chars (t : text) : list text := map (λ c, [c]) t.

(** The kept characters of a word: ideographs and ASCII letters only. *)
Definition word_only (w : text) : Prop :=
  Forall (λ c, is_cjk c = true ∨ is_ascii_letter c = true) w.

(** Counts do not increase along the list. *)
Definition non_increasing (l : counter) : Prop :=
  StronglySorted (λ a b, (b.2 ≤ a.2)%nat) l.

(** The maximal runs of ideographs and ASCII letters of a text, in order;
    [cur] is the run that is being read. *)
Fixpoint word_runs_from (cur : text) (t : text) : list text :=
  match t with
  | [] => match cur with [] => [] | _ => [cur] end
  | c :: t' =>
      if is_word_char c then word_runs_from (cur ++ [c]) t'
      else match cur with
           | [] => word_runs_from [] t'
           | _ => cur :: word_runs_from [] t'
           end
  end.

Definition word_runs (t : text) : list text := word_runs_from [] t.

(** The title and the data frame a chart was built with. *)
Fixpoint figure_title (f : figure) : text :=
  match f with
  | px_bar _ _ _ _ title | px_pie _ _ _ title | px_line _ _ _ title
  | px_scatter _ _ _ _ title | px_line_polar _ _ _ title
  | alt_area _ _ _ _ title _ _ => title
  | update_traces fig _ _ => figure_title fig
  end.

Fixpoint figure_frame (f : figure) : option DataFrame :=
  match f with
  | px_bar df _ _ _ _ | px_pie df _ _ _ | px_line df _ _ _
  | px_scatter df _ _ _ _ | alt_area df _ _ _ _ _ _ => Some df
  | px_line_polar _ _ _ _ => None
  | update_traces fig _ _ => figure_frame fig
  end.

Definition is_chart (e : st) : bool :=
  match e with st_chart _ => true | _ => false end.

Definition is_write (e : st) : bool :=
  match e with st_write _ => true | _ => false end.

(** * Properties *)

Example lit_ascii : lit "a<b" = [0x61; 0x3C; 0x62].
Proof. reflexivity. Qed.

Example lit_cjk : lit "测试" = [0x6D4B; 0x8BD5].
Proof. reflexivity. Qed.

Example preprocess_text_sample :
  preprocess_text (lit "  Hello, 世界!  <b>x1y</b> ") = lit "Hello 世界 b x y b".
Proof. vm_compute. reflexivity. Qed.

(** ** The normalizer *)

Lemma isspace_space : isspace space = true.
Proof. reflexivity. Qed.

Lemma word_char_not_space c : is_word_char c = true → isspace c = false.
Proof.
  unfold is_word_char, is_cjk, is_ascii_letter. intros H.
  destruct (isspace c) eqn:E; [exfalso | reflexivity].
  unfold isspace in E. bool_to_Prop; lia.
Qed.

Lemma word_char_not_pattern c : is_word_char c = true → non_word_pattern c = false.
Proof.
  intros H. unfold non_word_pattern. fold (is_word_char c). rewrite H.
  rewrite orb_false_r. unfold tag_class. apply bool_decide_eq_false.
  intros Hin. revert H. unfold is_word_char, is_cjk, is_ascii_letter.
  vm_compute in Hin.
  repeat (apply elem_of_cons in Hin as [-> | Hin]; [vm_compute; discriminate |]).
  by apply elem_of_nil in Hin.
Qed.

Lemma pattern_or_word c : non_word_pattern c = false → is_word_char c = true.
Proof.
  unfold non_word_pattern. intros H. apply orb_false_iff in H as [_ H].
  by apply negb_false_iff in H.
Qed.

Lemma charset_space c : in_charset c → isspace c = true → c = space.
Proof.
  intros [H | H] Hs; [| done]. apply word_char_not_space in H. congruence.
Qed.

Lemma re_sub_char_charset t : Forall in_charset (re_sub_char non_word_pattern space t).
Proof.
  unfold re_sub_char. apply Forall_forall. intros c Hc.
  apply list_elem_of_fmap in Hc as (c0 & -> & _).
  destruct (non_word_pattern c0) eqn:E; [by right | left; by apply pattern_or_word].
Qed.

Lemma re_sub_char_fixed t :
  Forall in_charset t → re_sub_char non_word_pattern space t = t.
Proof.
  unfold re_sub_char. induction 1 as [| c t Hc _ IH]; [done |].
  cbn [map]. rewrite IH. f_equal.
  destruct Hc as [Hc | ->]; [by rewrite word_char_not_pattern | by case_match].
Qed.

Lemma re_sub_runs_charset b t :
  Forall in_charset t → Forall in_charset (re_sub_runs_from isspace space b t).
Proof.
  intros H. revert b. induction H as [| c t Hc _ IH]; intros b; [constructor |].
  cbn [re_sub_runs_from]. destruct (isspace c), b; auto using Forall_cons_2.
  all: constructor; [by right | apply IH].
Qed.

Lemma re_sub_runs_single b t :
  single_spaced b (re_sub_runs_from isspace space b t) = true.
Proof.
  revert b. induction t as [| c t IH]; intros b; [done |].
  cbn [re_sub_runs_from]. destruct (isspace c) eqn:E.
  - destruct b; [apply IH |]. cbn [single_spaced]. rewrite isspace_space. apply IH.
  - cbn [single_spaced]. rewrite E. apply IH.
Qed.

Lemma re_sub_runs_fixed b t :
  single_spaced b t = true → re_sub_runs_from isspace space b t = t.
Proof.
  revert b. induction t as [| c t IH]; intros b H; [done |].
  cbn [single_spaced re_sub_runs_from] in *. destruct (isspace c).
  - bool_to_Prop. subst. by rewrite IH.
  - by rewrite IH.
Qed.

Lemma single_spaced_cons b c t :
  single_spaced b (c :: t) =
  if isspace c then negb b && (c =? space) && single_spaced true t
  else single_spaced false t.
Proof. reflexivity. Qed.

Lemma lstrip_charset t : Forall in_charset t → Forall in_charset (lstrip t).
Proof.
  induction 1 as [| c t Hc Ht IH]; [done |]. cbn [lstrip].
  destruct (isspace c); [done | by constructor].
Qed.

Lemma rstrip_charset t : Forall in_charset t → Forall in_charset (rstrip t).
Proof.
  induction 1 as [| c t Hc Ht IH]; [done |]. cbn [rstrip].
  destruct (rstrip t); [destruct (isspace c) |]; auto using Forall_nil_2, Forall_cons_2.
Qed.

Lemma lstrip_single b t : single_spaced b t = true → single_spaced false (lstrip t) = true.
Proof.
  revert b. induction t as [| c t IH]; intros b H; [done |].
  cbn [lstrip]. destruct (isspace c) eqn:E.
  - cbn [single_spaced] in H. rewrite E in H. bool_to_Prop. eauto.
  - cbn [single_spaced] in *. by rewrite E in *.
Qed.

Lemma rstrip_single b t : single_spaced b t = true → single_spaced b (rstrip t) = true.
Proof.
  revert b. induction t as [| c t IH]; intros b H; [done |].
  cbn [rstrip]. cbn [single_spaced] in H.
  destruct (rstrip t) as [| c' r] eqn:Er.
  - destruct (isspace c) eqn:E; [done |]. cbn [single_spaced]. by rewrite E.
  - rewrite single_spaced_cons.
    destruct (isspace c); [| by apply IH].
    bool_to_Prop. subst. by rewrite (IH true).
Qed.

Lemma lstrip_head t : no_space_at (head (lstrip t)).
Proof.
  induction t as [| c t IH]; [by intros ? |]. cbn [lstrip].
  destruct (isspace c) eqn:E; [done |]. intros c' [= <-]. done.
Qed.

Lemma rstrip_last t : no_space_at (last (rstrip t)).
Proof.
  induction t as [| c t IH]; [by intros ? |]. cbn [rstrip].
  destruct (rstrip t) as [| c' r] eqn:Er.
  - destruct (isspace c) eqn:E; [by intros ? |]. intros c' [= <-]. done.
  - intros x Hx. apply IH. by rewrite last_cons_cons in Hx.
Qed.

Lemma lstrip_last t : no_space_at (last t) → no_space_at (last (lstrip t)).
Proof.
  induction t as [| c t IH]; [done |]. cbn [lstrip]. intros H.
  destruct (isspace c) eqn:E; [| done]. apply IH.
  destruct t as [| c' t]; [by intros ? |]. by rewrite last_cons_cons in H.
Qed.

Lemma lstrip_fixed t : no_space_at (head t) → lstrip t = t.
Proof.
  destruct t as [| c t]; [done |]. intros H. cbn [lstrip].
  by rewrite (H c eq_refl).
Qed.

Lemma rstrip_fixed t : no_space_at (last t) → rstrip t = t.
Proof.
  induction t as [| c t IH]; [done |]. intros H. cbn [rstrip].
  destruct t as [| c' t].
  - cbn. by rewrite (H c eq_refl).
  - rewrite last_cons_cons in H. by rewrite (IH H).
Qed.

Lemma preprocess_text_normalized x : normalized (preprocess_text x).
Proof.
  unfold preprocess_text, strip, re_sub_runs. split.
  - apply lstrip_charset, rstrip_charset, re_sub_runs_charset, re_sub_char_charset.
  - eapply lstrip_single, rstrip_single, re_sub_runs_single.
  - apply lstrip_head.
  - apply lstrip_last, rstrip_last.
Qed.

Lemma normalized_fixed t : normalized t → preprocess_text t = t.
Proof.
  intros [Hc Hs Hh Hl]. unfold preprocess_text, strip, re_sub_runs.
  rewrite re_sub_char_fixed, re_sub_runs_fixed by done.
  by rewrite rstrip_fixed, lstrip_fixed.
Qed.

Lemma single_spaced_no_double b t i :
  single_spaced b t = true → t !! i = Some space → t !! S i ≠ Some space.
Proof.
  revert b i. induction t as [| c t IH]; intros b i H Hi; [done |].
  cbn [single_spaced] in H. destruct i as [| i].
  - injection Hi as ->. rewrite isspace_space in H. bool_to_Prop.
    destruct t as [| c' t]; [done |]. cbn. intros [= ->].
    cbn [single_spaced] in *. rewrite isspace_space in *. done.
  - cbn in Hi. change ((c :: t) !! S (S i)) with (t !! S i).
    destruct (isspace c); bool_to_Prop; eauto.
Qed.

(** C3: the Normalizer is idempotent: applying [preprocess_text] twice to
    any text gives the same result as applying it once. *)
Theorem preprocess_text_idempotent (x : text) :
  preprocess_text (preprocess_text x) = preprocess_text x.
Proof. apply normalized_fixed, preprocess_text_normalized. Qed.

(** C4: the output of [preprocess_text] holds only ideographs of
    U+4E00..U+9FFF, ASCII letters and spaces; it neither starts nor ends with
    a space, and no space is followed by a space. *)
Theorem preprocess_text_output (x : text) :
  let y := preprocess_text x in
  Forall (λ c, is_cjk c = true ∨ is_ascii_letter c = true ∨ c = space) y ∧
  head y ≠ Some space ∧
  last y ≠ Some space ∧
  (∀ i, y !! i = Some space → y !! S i ≠ Some space).
Proof.
  intros y. destruct (preprocess_text_normalized x) as [Hc Hs Hh Hl]. fold y in Hc, Hs, Hh, Hl.
  repeat split.
  - eapply Forall_impl; [exact Hc |]. intros c [H | H]; [| auto].
    apply orb_true_iff in H. tauto.
  - intros H. by specialize (Hh _ H).
  - intros H. by specialize (Hl _ H).
  - intros i. by apply (single_spaced_no_double false).
Qed.

(** ** Counter *)

Lemma occurrences_cons w x ws :
  occurrences w (x :: ws) = if decide (x = w) then S (occurrences w ws) else occurrences w ws.
Proof. unfold occurrences. rewrite filter_cons. by case_decide. Qed.

Lemma occurrences_snoc w x ws :
  occurrences w (ws ++ [x]) = if decide (x = w) then S (occurrences w ws) else occurrences w ws.
Proof.
  unfold occurrences. rewrite filter_app, length_app, filter_cons, filter_nil.
  case_decide; cbn; lia.
Qed.

Lemma filter_counter_incr_same w (m : counter) :
  filter (λ kv, kv.1 ≠ w) (counter_incr w m) = filter (λ kv, kv.1 ≠ w) m.
Proof.
  induction m as [| [k n] m IH]; cbn [counter_incr].
  - rewrite filter_cons_False; [done | cbn; auto].
  - case_decide as Hk.
    + subst. rewrite !filter_cons_False; cbn; auto.
    + rewrite !filter_cons_True by done. by rewrite IH.
Qed.

Lemma filter_counter_incr_other x w (m : counter) :
  x ≠ w →
  filter (λ kv, kv.1 ≠ x) (counter_incr w m) = counter_incr w (filter (λ kv, kv.1 ≠ x) m).
Proof.
  intros Hx. induction m as [| [k n] m IH]; cbn [counter_incr].
  - rewrite filter_cons_True; [done | cbn; auto].
  - case_decide as Hk.
    + subst. rewrite !filter_cons_True by (cbn; auto). cbn [counter_incr].
      by rewrite decide_True.
    + destruct (decide (k = x)) as [-> | Hkx].
      * rewrite !filter_cons_False by (cbn; auto). apply IH.
      * rewrite !filter_cons_True by done. cbn [counter_incr].
        rewrite decide_False by done. by rewrite IH.
Qed.

Lemma tally_snoc ws w : tally (ws ++ [w]) = counter_incr w (tally ws).
Proof.
  induction ws as [| x ws IH]; [done |].
  cbn [app tally counter_incr]. rewrite IH, occurrences_snoc.
  destruct (decide (x = w)) as [-> | Hx].
  - rewrite decide_True by done. by rewrite filter_counter_incr_same.
  - rewrite decide_False by congruence. by rewrite filter_counter_incr_other.
Qed.

(** The counter holds the words in first-seen order with their numbers of
    occurrences. *)
Lemma Counter_tally ws : Counter ws = tally ws.
Proof.
  induction ws as [| w ws IH] using rev_ind; [done |].
  unfold Counter in *. by rewrite foldl_snoc, IH, tally_snoc.
Qed.

Lemma elem_of_tally k n ws :
  (k, n) ∈ tally ws ↔ k ∈ ws ∧ n = occurrences k ws.
Proof.
  revert n. induction ws as [| w ws IH]; intros n; cbn [tally].
  - rewrite elem_of_nil. split; [done | intros [H _]; by apply elem_of_nil in H].
  - rewrite elem_of_cons, list_elem_of_filter, IH, elem_of_cons, occurrences_cons.
    cbn. destruct (decide (w = k)) as [-> | Hk].
    + split; [intros [[= ->] | [? _]]; [auto | done] | intros [_ ->]; auto].
    + split; [intros [[= ? ?] | (_ & ? & ->)]; [congruence | auto] |].
      intros [[? | ?] ->]; [congruence | auto].
Qed.

Lemma tally_keys_NoDup ws : NoDup (tally ws).*1.
Proof.
  induction ws as [| w ws IH]; cbn [tally fmap list_fmap]; [constructor |].
  constructor.
  - cbn. rewrite list_elem_of_fmap. intros ([k n] & Heq & Hk). cbn in Heq. subst k.
    apply list_elem_of_filter in Hk as [Hk _]. by apply Hk.
  - revert IH. generalize (tally ws). intros m. induction m as [| [k n] m IHm]; [done |].
    rewrite fmap_cons, NoDup_cons. intros [Hk Hm]. rewrite filter_cons. case_decide.
    + rewrite fmap_cons. constructor; [| auto]. rewrite list_elem_of_fmap in *.
      intros (kv & Heq & Hkv). apply list_elem_of_filter in Hkv as [_ Hkv]. apply Hk. eauto.
    + auto.
Qed.

Lemma tally_keys k ws : k ∈ (tally ws).*1 ↔ k ∈ ws.
Proof.
  rewrite list_elem_of_fmap. split.
  - intros ([k' n] & -> & H). by apply elem_of_tally in H as [H _].
  - intros H. exists (k, occurrences k ws). split; [done |]. by apply elem_of_tally.
Qed.

Lemma tally_length ws : length (tally ws) = length (remove_dups ws).
Proof.
  rewrite <- (length_fmap fst). apply Permutation_length, NoDup_Permutation.
  - apply tally_keys_NoDup.
  - apply NoDup_remove_dups.
  - intros k. by rewrite tally_keys, elem_of_remove_dups.
Qed.

(** ** Sorted lists *)

Section sorted.
Context {A : Type}.
Implicit Types (R : relation A) (l : list A).

Lemma StronglySorted_filter R (P : A → Prop) `{!∀ x, Decision (P x)} l :
  StronglySorted R l → StronglySorted R (filter P l).
Proof.
  induction 1 as [| x l Hl IH Hx]; [constructor |].
  rewrite filter_cons. case_decide; [| done]. constructor; [done |].
  apply Forall_forall. intros y Hy. apply list_elem_of_filter in Hy as [_ Hy].
  by eapply Forall_forall in Hx.
Qed.

Lemma filter_none (P : A → Prop) `{!∀ x, Decision (P x)} l :
  Forall (λ x, ¬ P x) l → filter P l = [].
Proof.
  induction 1 as [| x l Hx _ IH]; [done |]. by rewrite filter_cons_False.
Qed.

Lemma StronglySorted_weaken_elem R R' l :
  (∀ a b, a ∈ l → b ∈ l → R a b → R' a b) →
  StronglySorted R l → StronglySorted R' l.
Proof.
  intros HR Hl. induction Hl as [| x l Hl IH Hx]; [constructor |].
  constructor.
  - apply IH. intros a b Ha Hb. apply HR; by right.
  - apply Forall_forall. intros y Hy. apply HR; [by left | by right |].
    by eapply Forall_forall in Hx.
Qed.

Lemma StronglySorted_lookup R l i j a b :
  StronglySorted R l → (i < j)%nat → l !! i = Some a → l !! j = Some b → R a b.
Proof.
  intros Hl. revert i j. induction Hl as [| x l Hl IH Hx]; intros i j Hij Hi Hj; [done |].
  destruct j as [| j]; [lia |]. cbn in Hj. destruct i as [| i].
  - injection Hi as ->. eapply Forall_forall in Hx; [done |].
    by eapply list_elem_of_lookup_2.
  - cbn in Hi. eapply IH; [| done..]. lia.
Qed.

Lemma StronglySorted_take R l n : StronglySorted R l → StronglySorted R (take n l).
Proof.
  intros Hl. rewrite <- (take_drop n l) in Hl. by apply StronglySorted_app_1_l in Hl.
Qed.
End sorted.

(** ** most_common *)

Lemma insert_desc_perm x l : insert_desc x l ≡ₚ x :: l.
Proof.
  induction l as [| y l IH]; [done |]. cbn [insert_desc].
  case_decide; [done |]. by rewrite IH, Permutation_swap.
Qed.

Lemma sorted_desc_perm m : sorted_desc m ≡ₚ m.
Proof.
  induction m as [| x m IH]; [done |]. cbn [sorted_desc foldr].
  fold (sorted_desc m). by rewrite insert_desc_perm, IH.
Qed.

Lemma most_common_length n m : length (most_common n m) = Nat.min n (length m).
Proof. unfold most_common. by rewrite length_take, sorted_desc_perm. Qed.

Lemma most_common_rest n m : most_common n m ++ drop n (sorted_desc m) ≡ₚ m.
Proof. unfold most_common. by rewrite take_drop, sorted_desc_perm. Qed.

Lemma most_common_ge n m : (length m ≤ n)%nat → most_common n m = sorted_desc m.
Proof.
  intros H. unfold most_common. apply take_ge. by rewrite sorted_desc_perm.
Qed.

Section ranking.
Variable ws : list text.

Let earlier (a b : text * nat) : Prop := (first_index a.1 ws < first_index b.1 ws)%nat.

Lemma insert_desc_ranked x l :
  StronglySorted (ranks_before ws) l → Forall (earlier x) l →
  StronglySorted (ranks_before ws) (insert_desc x l).
Proof.
  induction l as [| y l IH]; intros Hl Hx; [repeat constructor |].
  apply StronglySorted_cons in Hl as [Hy Hl]. apply Forall_cons in Hx as [Hxy Hx].
  cbn [insert_desc]. case_decide as Hc.
  - constructor; [by constructor |]. constructor.
    + destruct (decide (y.2 = x.2)); [by right | left; lia].
    + rewrite Forall_forall in *. intros z Hz.
      destruct (Hy z Hz) as [? | [? _]];
        (destruct (decide (z.2 = x.2)); [right; split; [done | by apply Hx] | left; lia]).
  - constructor; [by apply IH |]. rewrite insert_desc_perm.
    constructor; [left; lia | done].
Qed.

Lemma sorted_desc_ranked m :
  StronglySorted earlier m → StronglySorted (ranks_before ws) (sorted_desc m).
Proof.
  induction 1 as [| x m Hm IH Hx]; [constructor |].
  cbn [sorted_desc foldr]. fold (sorted_desc m).
  apply insert_desc_ranked; [done |]. by rewrite sorted_desc_perm.
Qed.
End ranking.

Lemma first_index_filter (P : text → Prop) `{!∀ w, Decision (P w)} a b ws :
  P a → P b →
  (first_index a (filter P ws) < first_index b (filter P ws))%nat →
  (first_index a ws < first_index b ws)%nat.
Proof.
  intros Ha Hb. induction ws as [| x ws IH]; [done |].
  rewrite filter_cons. destruct (decide (P x)) as [Hx | Hx]; cbn [first_index].
  - repeat case_decide; lia.
  - rewrite !decide_False by congruence. lia.
Qed.

Lemma tally_earlier ws :
  StronglySorted (λ a b, (first_index a.1 ws < first_index b.1 ws)%nat) (tally ws).
Proof.
  induction ws as [| w ws IH]; [constructor |]. cbn [tally]. constructor.
  - eapply StronglySorted_weaken_elem; [| by apply StronglySorted_filter, IH].
    intros a b [Ha _]%list_elem_of_filter [Hb _]%list_elem_of_filter H.
    cbn [first_index]. rewrite !decide_False by done. lia.
  - apply Forall_forall. intros b [Hb _]%list_elem_of_filter. cbn.
    rewrite decide_True, decide_False by done. lia.
Qed.

(** ** segment_and_count *)

Lemma occurrences_filter (P : text → Prop) `{!∀ w, Decision (P w)} k ws :
  P k → occurrences k (filter P ws) = occurrences k ws.
Proof.
  intros Hk. unfold occurrences. rewrite list_filter_filter. f_equal.
  apply list_filter_iff. intros x. split; [by intros [? _] | by intros ->].
Qed.

Lemma occurrences_pos k ws : k ∈ ws → (1 ≤ occurrences k ws)%nat.
Proof.
  induction 1 as [k ws | k x ws _ IH]; rewrite occurrences_cons.
  - rewrite decide_True by done. lia.
  - case_decide; lia.
Qed.

Lemma elem_of_segment_and_count cut t stopwords k n :
  (k, n) ∈ segment_and_count cut t stopwords ↔
  (k ∈ cut t ∧ strip k ≠ [] ∧ k ∉ stopwords) ∧ n = occurrences k (cut t).
Proof.
  unfold segment_and_count. rewrite Counter_tally, elem_of_tally, list_elem_of_filter.
  split.
  - intros [[Hk Hin] ->]. by rewrite occurrences_filter.
  - intros [(Hin & Hk) ->]. by rewrite occurrences_filter.
Qed.

Lemma rstrip_all_space k : Forall (λ c, isspace c = true) k → rstrip k = [].
Proof.
  induction 1 as [| c k Hc _ IH]; [done |]. cbn [rstrip]. by rewrite IH, Hc.
Qed.

Lemma strip_all_space k : Forall (λ c, isspace c = true) k → strip k = [].
Proof. intros H. unfold strip. by rewrite rstrip_all_space. Qed.

Lemma elem_of_concat_pieces (w : text) (ws : list text) c :
  c ∈ w → w ∈ ws → c ∈ concat ws.
Proof.
  intros Hc. induction 1 as [w ws | w x ws _ IH]; cbn [concat]; apply elem_of_app; auto.
Qed.

Lemma cut_chars_pieces t : concat (cut_chars t) = t.
Proof. unfold cut_chars. induction t as [| c t IH]; [done |]. cbn. by rewrite IH. Qed.

Lemma cut_chars_spaces_apart t w :
  w ∈ cut_chars t → Exists (λ c, isspace c = true) w → Forall (λ c, isspace c = true) w.
Proof.
  unfold cut_chars. intros (c & -> & _)%list_elem_of_fmap H.
  apply Exists_cons in H as [H | H]; [by repeat constructor | by apply Exists_nil in H].
Qed.

(** C9: empty text is no error: [preprocess_text] maps the empty text to the
    empty text, and [segment_and_count] maps it to the empty frequency map,
    whatever the stopwords, for a segmenter whose words are pieces of its
    input. *)
Theorem empty_text_no_error (cut : text → list text) (stopwords : gset text) :
  concat (cut []) = [] →
  preprocess_text [] = [] ∧ segment_and_count cut [] stopwords = [].
Proof.
  intros Hcut. split; [done |].
  unfold segment_and_count. rewrite filter_none; [done |].
  apply Forall_forall. intros w Hw [Hs _]. apply Hs.
  destruct w as [| c w]; [done |].
  assert (c ∈ concat (cut [])) as Hc by (eapply elem_of_concat_pieces; [by left | done]).
  rewrite Hcut in Hc. by apply elem_of_nil in Hc.
Qed.

Lemma empty_text_no_error_witness :
  preprocess_text [] = [] ∧ segment_and_count cut_chars [] ∅ = [].
Proof. apply (empty_text_no_error cut_chars ∅). reflexivity. Defined.

Lemma segment_and_count_earlier cut t stopwords :
  StronglySorted
    (λ a b, (first_index a.1 (cut t) < first_index b.1 (cut t))%nat)
    (segment_and_count cut t stopwords).
Proof.
  unfold segment_and_count. rewrite Counter_tally.
  eapply StronglySorted_weaken_elem; [| apply tally_earlier].
  intros [k1 n1] [k2 n2] [H1 _]%elem_of_tally [H2 _]%elem_of_tally. cbn.
  apply list_elem_of_filter in H1 as [H1 _]. apply list_elem_of_filter in H2 as [H2 _].
  by apply first_index_filter.
Qed.

Lemma segment_and_count_ranked cut t stopwords :
  StronglySorted (ranks_before (cut t)) (sorted_desc (segment_and_count cut t stopwords)).
Proof. apply sorted_desc_ranked, segment_and_count_earlier. Qed.

(** C1: the top-N of a frequency map of [segment_and_count] are the N
    entries (all of them when there are fewer) of largest count, in the
    order of decreasing count, an entry whose word the segmenter yielded
    first going before the others of the same count.  For the map
    测试: 5, 分析: 3, 数据: 3 and N = 2 the result is 测试, then 分析, the
    earlier of the two words of count 3 (and 数据 when that one is the
    earlier). *)
Theorem most_common_first_seen
    (cut : text → list text) (t : text) (stopwords : gset text) (n : nat) :
  let word_counts := segment_and_count cut t stopwords in
  let top := most_common n word_counts in
  length top = Nat.min n (length word_counts) ∧
  (∀ a, a ∈ top → a ∈ word_counts) ∧
  (∀ a b, a ∈ top → b ∈ word_counts → b ∉ top → ranks_before (cut t) a b) ∧
  (∀ i j a b, (i < j)%nat → top !! i = Some a → top !! j = Some b →
     (b.2 ≤ a.2)%nat ∧
     (a.2 = b.2 → (first_index a.1 (cut t) < first_index b.1 (cut t))%nat)) ∧
  most_common 2 [(lit "测试", 5%nat); (lit "分析", 3%nat); (lit "数据", 3%nat)]
    = [(lit "测试", 5%nat); (lit "分析", 3%nat)] ∧
  most_common 2 [(lit "测试", 5%nat); (lit "数据", 3%nat); (lit "分析", 3%nat)]
    = [(lit "测试", 5%nat); (lit "数据", 3%nat)].
Proof.
  intros word_counts top.
  pose proof (segment_and_count_ranked cut t stopwords) as Hs. fold word_counts in Hs.
  pose proof (most_common_rest n word_counts) as Hp. fold top in Hp.
  assert (sorted_desc word_counts = top ++ drop n (sorted_desc word_counts)) as Hd
    by (unfold top, most_common; by rewrite take_drop).
  split_and!.
  - apply most_common_length.
  - intros a Ha. rewrite <- Hp. apply elem_of_app. by left.
  - intros a b Ha Hb Hnb. rewrite Hd in Hs.
    eapply StronglySorted_app_1_elem_of; [exact Hs | done |].
    rewrite <- Hp in Hb. apply elem_of_app in Hb as [Hb | Hb]; done.
  - intros i j a b Hij Ha Hb.
    assert (ranks_before (cut t) a b) as [H | [H1 H2]].
    { eapply (StronglySorted_lookup _ top i j); [| done..].
      by apply StronglySorted_take. }
    + split; lia.
    + split; [lia | done].
  - reflexivity.
  - reflexivity.
Qed.

(** The map of the example is one that [segment_and_count] produces. *)
Example segment_and_count_sample :
  let words := [lit "测试"; lit "分析"; lit "数据"; lit "测试"; lit "数据"; lit "分析";
                lit "测试"; lit "分析"; lit "测试"; lit "数据"; lit "测试"] in
  segment_and_count (λ _, words) [] ∅
  = [(lit "测试", 5%nat); (lit "分析", 3%nat); (lit "数据", 3%nat)].
Proof. vm_compute. reflexivity. Qed.

(** C10: when a frequency map has fewer than N distinct words, its top-N
    are all its entries, min(N, number of distinct words) of them, with
    counts that do not increase along the list. *)
Theorem most_common_all (ws : list text) (n : nat) :
  let word_counts := Counter ws in
  let distinct := length (remove_dups ws) in
  (distinct < n)%nat →
  most_common n word_counts ≡ₚ word_counts ∧
  length (most_common n word_counts) = Nat.min n distinct ∧
  length (most_common n word_counts) = distinct ∧
  non_increasing (most_common n word_counts).
Proof.
  intros word_counts distinct Hn.
  assert (length word_counts = distinct) as Hlen
    by (unfold word_counts; by rewrite Counter_tally, tally_length).
  rewrite most_common_ge by lia. split_and!.
  - apply sorted_desc_perm.
  - rewrite sorted_desc_perm. lia.
  - by rewrite sorted_desc_perm.
  - unfold word_counts. rewrite Counter_tally.
    eapply StronglySorted_weaken_elem; [| apply (sorted_desc_ranked ws), tally_earlier].
    intros a b _ _ [H | [H _]]; lia.
Qed.

Lemma most_common_all_witness :
  let ws := [lit "数据"; lit "分析"; lit "数据"] in
  most_common 20 (Counter ws) ≡ₚ Counter ws ∧
  length (most_common 20 (Counter ws)) = Nat.min 20 2 ∧
  length (most_common 20 (Counter ws)) = 2%nat ∧
  non_increasing (most_common 20 (Counter ws)).
Proof.
  apply (most_common_all [lit "数据"; lit "分析"; lit "数据"] 20).
  vm_compute. lia.
Defined.

(** A word the filter keeps holds no whitespace when the segmenter keeps
    whitespace apart from the other characters. *)
Lemma kept_word_no_space (w : text) :
  (Exists (λ c, isspace c = true) w → Forall (λ c, isspace c = true) w) →
  strip w ≠ [] → Forall (λ c, isspace c = false) w.
Proof.
  intros Hapart Hs. apply Forall_forall. intros c Hc.
  destruct (isspace c) eqn:E; [| done]. destruct Hs.
  apply strip_all_space, Hapart, Exists_exists. eauto.
Qed.

(** On a text that is not normalized, a key may hold other characters: for
    the text of one comma the comma is a key. *)
Lemma segment_and_count_comma :
  segment_and_count cut_chars (lit ",") ∅ = [(lit ",", 1%nat)] ∧
  is_cjk 0x2C = false ∧ is_ascii_letter 0x2C = false ∧
  ¬ word_only (lit ",").
Proof.
  split_and!; [by vm_compute | done | done |].
  intros H. apply Forall_cons in H as [[H | H] _]; discriminate.
Qed.

(** C2, as amended: every key of a frequency map of [segment_and_count] is a
    non-empty word that the segmenter yielded, holds a character that is not
    whitespace, is no stopword, and has a count of at least 1, the number of
    times it was yielded.  When the text is an output of the Normalizer and
    the segmenter cuts it into pieces, whitespace apart from the other
    characters, every key consists of ideographs of U+4E00..U+9FFF and ASCII
    letters only. *)
Theorem segment_and_count_keys
    (cut : text → list text) (t : text) (stopwords : gset text) (k : text) (n : nat) :
  (k, n) ∈ segment_and_count cut t stopwords →
  (k ≠ [] ∧ strip k ≠ [] ∧ (k ∉ stopwords) ∧ (1 ≤ n)%nat ∧ n = occurrences k (cut t)) ∧
  ((∃ x, t = preprocess_text x) →
   concat (cut t) = t →
   (∀ w, w ∈ cut t →
      Exists (λ c, isspace c = true) w → Forall (λ c, isspace c = true) w) →
   word_only k).
Proof.
  intros [(Hin & Hs & Hsw) ->]%elem_of_segment_and_count. split.
  - split_and!; [by intros -> | done | done | by apply occurrences_pos | done].
  - intros [x ->] Hpieces Hapart.
    pose proof (kept_word_no_space k (Hapart k Hin) Hs) as Hk.
    destruct (preprocess_text_normalized x) as [Hc _ _ _].
    apply Forall_forall. intros c Hck.
    assert (c ∈ preprocess_text x) as Hct
      by (rewrite <- Hpieces; by eapply elem_of_concat_pieces).
    eapply Forall_forall in Hc; [| exact Hct]. eapply Forall_forall in Hk; [| exact Hck].
    destruct Hc as [Hc | ->]; [| done]. apply orb_true_iff in Hc. tauto.
Qed.

Lemma segment_and_count_keys_witness :
  let t := preprocess_text (lit "Hello, 世界! hello") in
  (lit "l" ≠ [] ∧ strip (lit "l") ≠ [] ∧ (lit "l" ∉ ({[ lit "o" ]} : gset text)) ∧
   (1 ≤ 4)%nat ∧ 4%nat = occurrences (lit "l") (cut_chars t)) ∧
  word_only (lit "l").
Proof.
  intros t.
  destruct (segment_and_count_keys cut_chars t {[ lit "o" ]} (lit "l") 4) as [H1 H2].
  - apply elem_of_segment_and_count. split_and!.
    + vm_compute. do 2 apply list_elem_of_further. apply list_elem_of_here.
    + by vm_compute.
    + apply not_elem_of_singleton. by vm_compute.
    + by vm_compute.
  - split; [exact H1 |]. apply H2.
    + by eexists.
    + apply cut_chars_pieces.
    + apply cut_chars_spaces_apart.
Defined.

(** ** Extractor *)

Lemma node_ind' (P : node → Prop) :
  (∀ class s, P (Str class s)) →
  (∀ name children, Forall P children → P (Tag name children)) →
  ∀ n, P n.
Proof.
  intros Hs Ht.
  refine (fix IH (n : node) : P n :=
            match n with
            | Str class s => Hs class s
            | Tag name children =>
                Ht name children
                  ((fix go (l : list node) : Forall P l :=
                      match l with
                      | [] => Forall_nil_2 P
                      | x :: l' => Forall_cons_2 P x l' (IH x) (go l')
                      end) children)
            end).
Qed.

Lemma omap_concat {A B} (f : A → option B) (ls : list (list A)) :
  omap f (concat ls) = concat (map (omap f) ls).
Proof. induction ls as [| l ls IH]; [done |]. cbn. by rewrite omap_app, IH. Qed.

Lemma head_app {A} (l1 l2 : list A) :
  head (l1 ++ l2) = match head l1 with Some x => Some x | None => head l2 end.
Proof. by destruct l1. Qed.

Lemma strings_of_subtree n : strings_of n = omap text_of (subtree n).
Proof.
  induction n as [class s | name children IH] using node_ind'.
  { cbn. by case_decide. }
  cbn [strings_of subtree omap list_omap text_of]. rewrite omap_concat, map_map.
  f_equal. induction IH as [| x l Hx _ IHl]; [done |]. cbn [map]. by rewrite Hx, IHl.
Qed.

Lemma descendant_strings_text n :
  descendant_strings n = omap text_of (descendants n).
Proof.
  destruct n as [class s | name children]; [done |].
  cbn [descendant_strings descendants]. rewrite omap_concat, map_map.
  f_equal. induction children as [| x l IH]; [done |].
  cbn [map]. by rewrite strings_of_subtree, IH.
Qed.

Lemma find_in_subtree name n :
  find_in name n = head (filter (λ x, tag_named name x) (subtree n)).
Proof.
  induction n as [class s | nm children IH] using node_ind'; [done |].
  cbn [find_in subtree]. rewrite filter_cons. cbn [tag_named].
  destruct (decide (nm = name)) as [-> | Hn].
  - by rewrite decide_True by by apply bool_decide_pack.
  - rewrite decide_False by (by intros ?%bool_decide_unpack).
    induction IH as [| x l Hx _ IHl]; [done |].
    cbn [map concat]. rewrite filter_app, head_app, <- Hx, IHl. done.
Qed.

Lemma find_nodes name soup :
  find name soup = head (filter (λ x, tag_named name x) (nodes_of soup)).
Proof.
  unfold nodes_of. induction soup as [| x soup IH]; [done |].
  cbn [find map concat]. by rewrite filter_app, head_app, <- find_in_subtree, IH.
Qed.

Lemma lstrip_split t : ∃ l, t = l ++ lstrip t ∧ Forall (λ c, isspace c = true) l.
Proof.
  induction t as [| c t (l & IH & Hl)]; [by exists [] |]. cbn [lstrip].
  destruct (isspace c) eqn:E; [| by exists []].
  exists (c :: l). split; [cbn; by f_equal | by constructor].
Qed.

Lemma rstrip_split t : ∃ r, t = rstrip t ++ r ∧ Forall (λ c, isspace c = true) r.
Proof.
  induction t as [| c t (r & IH & Hr)]; [by exists [] |]. cbn [rstrip].
  destruct (rstrip t) as [| c' t'] eqn:Et.
  - destruct (isspace c) eqn:E.
    + exists (c :: r). cbn in IH. subst t. split; [done | by constructor].
    + exists r. cbn in *. by subst t.
  - exists r. split; [| done]. cbn. f_equal. exact IH.
Qed.

(** [strip] removes whitespace from both ends and nothing else. *)
Lemma strip_trims t :
  (∃ l r, t = l ++ strip t ++ r ∧
          Forall (λ c, isspace c = true) l ∧ Forall (λ c, isspace c = true) r) ∧
  no_space_at (head (strip t)) ∧ no_space_at (last (strip t)).
Proof.
  unfold strip. split_and!.
  - destruct (rstrip_split t) as (r & Hr & ?). destruct (lstrip_split (rstrip t)) as (l & Hl & ?).
    exists l, r. split_and!; [| done..]. by rewrite app_assoc, <- Hl.
  - apply lstrip_head.
  - apply lstrip_last, rstrip_last.
Qed.

(** Where a blank text node lies between two others, the wording of the
    specification gives an empty line and [get_text] gives none; and the
    text of a script element, a text node under the body, is left out by
    [get_text]. *)
Lemma body_text_blank_node :
  let soup :=
    [Tag (lit "html")
       [Tag (lit "body")
          [Tag (lit "p") [Str NavigableString (lit "a")];
           Str NavigableString [newline];
           Tag (lit "p") [Str NavigableString (lit "b")]]]] in
  let page :=
    [Tag (lit "html")
       [Tag (lit "body")
          [Tag (lit "p") [Str NavigableString (lit "a")];
           Tag (lit "script") [Str Script (lit "var x=1;")]]]] in
  body_text soup = lit "a" ++ [newline] ++ lit "b" ∧
  body_text_as_worded soup = lit "a" ++ [newline; newline] ++ lit "b" ∧
  body_text soup ≠ body_text_as_worded soup ∧
  body_text page = lit "a" ∧
  body_text_as_worded page = lit "a" ++ [newline] ++ lit "var x=1;".
Proof. split_and!; by vm_compute. Qed.

(** C5, as amended: for a document without a body element the Extractor
    returns the empty text; otherwise it returns the strings under the first
    body element that are of class [NavigableString] or [CData] (so neither
    comments, declarations, doctypes or processing instructions, nor the text
    the parser marks as the content of script, style, template, rt or rp
    elements), in document order, each trimmed of whitespace at both ends,
    those that are empty after trimming left out, with a line break between
    every two. *)
Theorem body_text_extracts (soup : list node) :
  ((∀ x, x ∈ nodes_of soup → tag_named (lit "body") x = false) → body_text soup = []) ∧
  (∀ body,
     head (filter (λ x, tag_named (lit "body") x) (nodes_of soup)) = Some body →
     body_text soup =
     join [newline] (filter (λ s, s ≠ []) (map strip (omap text_of (descendants body))))) ∧
  (∀ class s,
     text_of (Str class s) = Some s ↔ class = NavigableString ∨ class = CData) ∧
  (∀ name children, text_of (Tag name children) = None).
Proof.
  unfold body_text. rewrite find_nodes. split_and!.
  - intros Hno. rewrite filter_none; [done |].
    apply Forall_forall. intros x Hx. rewrite (Hno x Hx). by intros ?.
  - intros body ->. unfold get_text_strip. by rewrite descendant_strings_text.
  - intros class s.
    destruct class; cbn; (split; [intros H | intros [H | H]]); try done; auto.
  - done.
Qed.

(** ** Fetcher *)

Lemma send_eq redirect_url srv n req log :
  send redirect_url srv n req log =
  if get_adapter (req_url req) then
    match srv req with
    | inl e => (inl e, log ++ [req])
    | inr r =>
        match get_redirect_target r with
        | None => (inr r, log ++ [req])
        | Some l =>
            match n with
            | O => (inl TooManyRedirects, log ++ [req])
            | S n' =>
                send redirect_url srv n'
                  {| req_method := req_method req;
                     req_url := redirect_url (req_url req) l;
                     req_headers := req_headers req |} (log ++ [req])
            end
        end
    end
  else (inl InvalidSchema, log).
Proof. by destruct n. Qed.

Lemma send_spec redirect_url srv n req log :
  ∃ sent,
    (send redirect_url srv n req log).2 = log ++ sent ∧
    (length sent ≤ S n)%nat ∧
    Forall (λ q, req_method q = req_method req ∧ req_headers q = req_headers req) sent ∧
    (get_adapter (req_url req) = false → sent = []) ∧
    (get_adapter (req_url req) = true →
       head sent = Some req ∧
       (∀ e, srv req = inl e → sent = [req]) ∧
       (∀ r, srv req = inr r → get_redirect_target r = None → sent = [req])) ∧
    send_outcome redirect_url srv n req sent (send redirect_url srv n req log).1.
Proof.
  revert req log. induction n as [| n IH]; intros req log; rewrite send_eq.
  all: destruct (get_adapter (req_url req)) eqn:Ha;
    [| exists []; rewrite app_nil_r; split_and!;
       [done | cbn; lia | constructor | done | done | by left]].
  all: destruct (srv req) as [e | r] eqn:Hsrv.
  1, 3: exists [req]; split_and!;
    [done | cbn; lia | by repeat constructor | done | done
    | right; exists req; split; [done |]; left; by exists e].
  all: destruct (get_redirect_target r) as [l |] eqn:Hl.
  2, 4: exists [req]; split_and!;
    [done | cbn; lia | by repeat constructor | done | done
    | right; exists req; split; [done |]; right; right; by exists r].
  - exists [req]. split_and!; [done | cbn; lia | by repeat constructor | done | |].
    + intros _. split_and!; [done | congruence |]. intros r' [= <-]. congruence.
    + right. exists req. split; [done |]. right. left. exists r, l.
      split_and!; [done.. |]. by left.
  - set (req' := {| req_method := req_method req;
                    req_url := redirect_url (req_url req) l;
                    req_headers := req_headers req |}).
    destruct (IH req' (log ++ [req])) as (sent & Hlog & Hlen & Hall & _ & Hfirst & Hout).
    exists (req :: sent). split_and!.
    + rewrite Hlog, <- app_assoc. done.
    + cbn. lia.
    + constructor; [done | exact Hall].
    + congruence.
    + intros _. split_and!; [done | congruence |]. intros r' [= <-]. congruence.
    + right. destruct Hout as [(-> & Hres & Hno) | (q & Hq & Hout)].
      * exists req. split; [done |]. right. left. exists r, l.
        split_and!; [done.. |]. right. by rewrite Hres.
      * exists q. split.
        { destruct sent; [done | by rewrite last_cons_cons]. }
        destruct Hout as [Hout | [(r' & l' & ? & ? & [[? Hl'] | ?]) | Hout]];
          [by left | | | by right; right].
        -- right. left. exists r', l'. split_and!; [done.. |]. left.
           split; [done |]. cbn. by rewrite Hl'.
        -- right. left. exists r', l'. split_and!; [done.. |]. by right.
Qed.

Lemma fetch_text_from_url_run prepare_url redirect_url srv decode html_parser url log :
  fetch_text_from_url prepare_url redirect_url srv decode html_parser url log =
  match requests_get prepare_url redirect_url srv url headers log with
  | (inl e, log') => (inl e, log')
  | (inr r, log') =>
      (if (400 <=? status_code r) && (status_code r <? 600)
       then inl (HTTPError (status_code r))
       else inr (body_text (html_parser (decode (Some (lit "utf-8")) (content r)))),
       log')
  end.
Proof.
  unfold fetch_text_from_url, mbind, io_bind.
  generalize (lit "utf-8"). intros utf8.
  destruct (requests_get _ _ _ _ _ _) as [[e | r] log']; [reflexivity |].
  unfold raise_for_status.
  destruct ((400 <=? status_code r) && (status_code r <? 600)); reflexivity.
Qed.

Lemma raise_for_status_range (r : Response) :
  (400 <=? status_code r) && (status_code r <? 600) = true ↔ 400 ≤ status_code r < 600.
Proof. rewrite andb_true_iff, N.leb_le, N.ltb_lt. done. Qed.



(** ** Chart renderer *)

Lemma chart_mapping_keys df :
  dom (chart_mapping df) =
  list_to_set [lit "垂直条形图"; lit "水平条形图"; lit "饼图"; lit "折线图"; lit "散点图"].
Proof. unfold chart_mapping. by rewrite dom_list_to_map_L. Qed.

(** C7: for an empty frequency map [create_plotly_radar_chart] returns no
    chart ([None]) and raises nothing; it returns no chart exactly when
    there are no top words. *)
Theorem radar_chart_empty (top_n : nat) :
  create_plotly_radar_chart [] top_n = None ∧
  (∀ word_counts,
     create_plotly_radar_chart word_counts top_n = None ↔
     word_counts = [] ∨ top_n = 0%nat).
Proof.
  split; [by destruct top_n |]. intros m. unfold create_plotly_radar_chart.
  pose proof (most_common_length top_n m) as Hlen.
  destruct (most_common top_n m) as [| a top] eqn:E.
  - split; [| done]. intros _. destruct m; [by left | right]. cbn in Hlen. lia.
  - split; [done |]. intros [-> | ->]; cbn in Hlen; lia.
Qed.

Lemma most_common_nil n (m : counter) :
  most_common n m = [] ↔ m = [] ∨ n = 0%nat.
Proof.
  pose proof (most_common_length n m) as Hlen.
  destruct (most_common n m) as [| a top] eqn:E.
  - split; [| done]. intros _. destruct m; [by left | right]. cbn in Hlen. lia.
  - split; [done |]. intros [-> | ->]; cbn in Hlen; lia.
Qed.

(** All five charts are built first: the call fails for a frame without
    rows, and is the lookup in the dictionary otherwise. *)
Lemma create_plotly_chart_run chart_type word_counts top_n :
  create_plotly_chart chart_type word_counts top_n =
  if decide (most_common top_n word_counts = []) then inl ValueError
  else inr (chart_mapping (word_frame (most_common top_n word_counts)) !! chart_type).
Proof.
  unfold create_plotly_chart, chart_mapping, word_frame, px, mbind, exc_bind.
  cbn [df_rows]. by case_decide.
Qed.

Lemma create_plotly_chart_None chart_type word_counts top_n :
  chart_type ∉ [lit "垂直条形图"; lit "水平条形图"; lit "饼图"; lit "折线图"; lit "散点图"] →
  most_common top_n word_counts ≠ [] →
  create_plotly_chart chart_type word_counts top_n = inr None.
Proof.
  intros H Hne. rewrite create_plotly_chart_run, decide_False by done. f_equal.
  apply not_elem_of_dom. by rewrite chart_mapping_keys, elem_of_list_to_set.
Qed.

(** C8: for a chart type outside the enumeration [create_plotly_chart]
    returns no chart ([None]) without raising when the frequency map has top
    words, and [main] would hand that absent chart to the display.  But the
    five charts are built before the chart type is looked up, so that for a
    frequency map without top words the call raises [ValueError], whatever
    the chart type: for the chart type 柱状图 and the empty map it raises. *)
Theorem create_plotly_chart_unrecognized :
  (∀ chart_type word_counts top_n,
     chart_type ∉ chart_types → most_common top_n word_counts ≠ [] →
     create_plotly_chart chart_type word_counts top_n = inr None) ∧
  (∀ font chart_type word_counts,
     chart_type ∉ chart_types → word_counts ≠ [] →
     main_chart font chart_type word_counts = inr (plotly_chart None)) ∧
  (∀ chart_type word_counts top_n,
     most_common top_n word_counts = [] →
     create_plotly_chart chart_type word_counts top_n = inl ValueError) ∧
  (lit "柱状图" ∉ chart_types) ∧
  create_plotly_chart (lit "柱状图") [] 20 = inl ValueError.
Proof.
  assert (∀ chart_type word_counts top_n,
            chart_type ∉ chart_types → most_common top_n word_counts ≠ [] →
            create_plotly_chart chart_type word_counts top_n = inr None) as Hnone.
  { intros chart_type word_counts top_n H Hne. unfold chart_types in H.
    rewrite !not_elem_of_cons in H.
    destruct H as (H1 & H2 & H3 & H4 & H5 & H6 & H7 & H8 & _).
    apply create_plotly_chart_None; [| done]. rewrite !not_elem_of_cons.
    split_and!; [exact H2 | exact H3 | exact H4 | exact H5 | exact H6 | apply not_elem_of_nil]. }
  split_and!.
  - exact Hnone.
  - intros font chart_type word_counts H Hne. unfold main_chart.
    rewrite (Hnone chart_type word_counts 20%nat H).
    2: { rewrite most_common_nil. intros [? | ?]; done. }
    unfold chart_types in H. rewrite !not_elem_of_cons in H.
    destruct H as (H1 & H2 & H3 & H4 & H5 & H6 & H7 & H8 & _).
    destruct (decide (chart_type = lit "词云")) as [E | _]; [destruct (H1 E) |].
    destruct (decide (chart_type = lit "面积图")) as [E | _]; [destruct (H8 E) |].
    destruct (decide (chart_type = lit "雷达图")) as [E | _]; [destruct (H7 E) |].
    reflexivity.
  - intros chart_type word_counts top_n He.
    by rewrite create_plotly_chart_run, decide_True.
  - unfold chart_types. rewrite !not_elem_of_cons.
    split_and!; [by vm_compute.. | apply not_elem_of_nil].
  - by rewrite create_plotly_chart_run, decide_True.
Qed.

(** * Further properties of the pipeline *)

(** ** segment_and_count *)

Lemma tally_filter (P : text → Prop) `{!∀ w, Decision (P w)} ws :
  tally (filter P ws) = filter (λ kv, P kv.1) (tally ws).
Proof.
  induction ws as [| w ws IH]; [done |]. rewrite filter_cons. cbn [tally].
  destruct (decide (P w)) as [Hw | Hw].
  - cbn [tally]. rewrite filter_cons_True by done.
    rewrite occurrences_filter by done. f_equal.
    rewrite IH, !list_filter_filter. apply list_filter_iff. intros kv. tauto.
  - rewrite filter_cons_False by done. rewrite IH, list_filter_filter.
    apply list_filter_iff. intros kv. split; [| tauto].
    intros Hkv. split; [done |]. intros E. apply Hw. by rewrite <- E.
Qed.

Lemma counter_incr_total w (m : counter) :
  sum_list_with snd (counter_incr w m) = S (sum_list_with snd m).
Proof.
  induction m as [| [k n] m IH]; [done |]. cbn [counter_incr].
  case_decide; cbn [sum_list_with snd]; [lia |]. rewrite IH. lia.
Qed.

Lemma Counter_total ws : sum_list_with snd (Counter ws) = length ws.
Proof.
  induction ws as [| w ws IH] using rev_ind; [done |].
  unfold Counter in *. rewrite foldl_snoc, counter_incr_total, IH, length_app. cbn. lia.
Qed.

(** X1: the keys of the frequency map are pairwise distinct, and a word is
    a key exactly when the segmenter yielded it, it is not blank and it is no
    stopword; its count is then the number of times it was yielded. *)
Theorem segment_and_count_exact
    (cut : text → list text) (t : text) (stopwords : gset text) :
  let word_counts := segment_and_count cut t stopwords in
  NoDup word_counts.*1 ∧
  (∀ k, k ∈ word_counts.*1 ↔ k ∈ cut t ∧ strip k ≠ [] ∧ k ∉ stopwords) ∧
  (∀ k n, (k, n) ∈ word_counts → n = occurrences k (cut t)).
Proof.
  intros word_counts. split_and!.
  - unfold word_counts, segment_and_count. rewrite Counter_tally. apply tally_keys_NoDup.
  - intros k. unfold word_counts, segment_and_count.
    rewrite Counter_tally, tally_keys, list_elem_of_filter. tauto.
  - intros k n H. by apply elem_of_segment_and_count in H as [_ ->].
Qed.

(** X2: the counts of the frequency map add up to the number of words the
    segmenter yielded that are neither blank nor stopwords: every kept
    occurrence is counted once. *)
Theorem segment_and_count_total
    (cut : text → list text) (t : text) (stopwords : gset text) :
  sum_list_with snd (segment_and_count cut t stopwords) =
  length (filter (λ word, strip word ≠ [] ∧ word ∉ stopwords) (cut t)).
Proof. unfold segment_and_count. apply Counter_total. Qed.

(** X3: more stopwords only remove keys: the frequency map for the union
    of two stopword sets is the map for the first set without the entries
    whose word is in the second; the other entries keep their counts and
    their order. *)
Theorem segment_and_count_more_stopwords
    (cut : text → list text) (t : text) (stopwords more : gset text) :
  segment_and_count cut t (stopwords ∪ more) =
  filter (λ kv, kv.1 ∉ more) (segment_and_count cut t stopwords).
Proof.
  unfold segment_and_count. rewrite !Counter_tally.
  trans (tally (filter (λ w, w ∉ more)
                  (filter (λ word, strip word ≠ [] ∧ word ∉ stopwords) (cut t)))).
  - f_equal. rewrite list_filter_filter. apply list_filter_iff. intros w.
    rewrite not_elem_of_union. tauto.
  - rewrite tally_filter. by apply list_filter_iff.
Qed.

(** ** The normalizer as a whole *)

Lemma pattern_not_word c : non_word_pattern c = true → is_word_char c = false.
Proof.
  intros H. destruct (is_word_char c) eqn:E; [| done].
  apply word_char_not_pattern in E. congruence.
Qed.

Lemma space_not_word c : isspace c = true → is_word_char c = false.
Proof.
  intros H. destruct (is_word_char c) eqn:E; [| done].
  apply word_char_not_space in E. congruence.
Qed.

Lemma word_runs_from_cons cur c t :
  word_runs_from cur (c :: t) =
  if is_word_char c then word_runs_from (cur ++ [c]) t
  else match cur with [] => word_runs_from [] t | _ => cur :: word_runs_from [] t end.
Proof. reflexivity. Qed.

Lemma word_runs_from_non_word cur c t :
  is_word_char c = false →
  word_runs_from cur (c :: t) =
  match cur with [] => word_runs_from [] t | _ => cur :: word_runs_from [] t end.
Proof. intros H. cbn [word_runs_from]. by rewrite H. Qed.

Lemma word_runs_re_sub_char cur t :
  word_runs_from cur (re_sub_char non_word_pattern space t) = word_runs_from cur t.
Proof.
  unfold re_sub_char. revert cur. induction t as [| c t IH]; intros cur; [done |].
  cbn [map]. destruct (non_word_pattern c) eqn:E.
  - rewrite (word_runs_from_non_word cur c) by by apply pattern_not_word.
    rewrite (word_runs_from_non_word cur space) by done. by rewrite IH.
  - cbn [word_runs_from]. by rewrite (pattern_or_word c E), IH.
Qed.

Lemma word_runs_re_sub_runs b cur t :
  (b = true → cur = []) →
  word_runs_from cur (re_sub_runs_from isspace space b t) = word_runs_from cur t.
Proof.
  revert b cur. induction t as [| c t IH]; intros b cur Hb; [done |].
  cbn [re_sub_runs_from]. destruct (isspace c) eqn:E.
  - rewrite (word_runs_from_non_word cur c) by by apply space_not_word.
    destruct b.
    + rewrite (Hb eq_refl). by apply IH.
    + rewrite (word_runs_from_non_word cur space) by done. by rewrite (IH true).
  - cbn [word_runs_from]. destruct (is_word_char c).
    + apply IH. by intros [=].
    + rewrite (IH false) by by intros [=]. done.
Qed.

Lemma word_runs_lstrip t : word_runs_from [] (lstrip t) = word_runs_from [] t.
Proof.
  induction t as [| c t IH]; [done |]. cbn [lstrip].
  destruct (isspace c) eqn:E; [| done].
  by rewrite (word_runs_from_non_word [] c) by by apply space_not_word.
Qed.

Lemma word_runs_rstrip cur t : word_runs_from cur (rstrip t) = word_runs_from cur t.
Proof.
  revert cur. induction t as [| c t IH]; intros cur; [done |]. cbn [rstrip].
  destruct (rstrip t) as [| c' r] eqn:Er.
  - destruct (isspace c) eqn:E.
    + rewrite (word_runs_from_non_word cur c) by by apply space_not_word.
      rewrite <- (IH []). by destruct cur.
    + cbn [word_runs_from]. destruct (is_word_char c).
      * by rewrite <- IH.
      * by rewrite <- (IH []).
  - rewrite (word_runs_from_cons cur c (c' :: r)), (word_runs_from_cons cur c t).
    destruct (is_word_char c); by rewrite IH.
Qed.

Lemma word_runs_preprocess_text x : word_runs (preprocess_text x) = word_runs x.
Proof.
  unfold word_runs, preprocess_text, strip, re_sub_runs.
  rewrite word_runs_lstrip, word_runs_rstrip, word_runs_re_sub_runs by by intros [=].
  apply word_runs_re_sub_char.
Qed.

Lemma join_cons sep p (ps : list text) :
  ps ≠ [] → join sep (p :: ps) = p ++ sep ++ join sep ps.
Proof. by destruct ps. Qed.

Lemma normalized_runs b cur y :
  Forall in_charset y → single_spaced b y = true → no_space_at (last y) →
  (cur ≠ [] ∨ no_space_at (head y)) →
  cur ++ y = join [space] (word_runs_from cur y).
Proof.
  intros Hc. revert b cur. induction Hc as [| c y Hc _ IH]; intros b cur Hs Hl Hh.
  - rewrite app_nil_r. by destruct cur.
  - assert (no_space_at (last y)) as Hl'.
    { destruct y; [by intros ? | by rewrite last_cons_cons in Hl]. }
    rewrite single_spaced_cons in Hs. destruct Hc as [Hw | ->].
    + rewrite (word_char_not_space c Hw) in Hs. cbn [word_runs_from]. rewrite Hw.
      rewrite <- (IH false) by (try done; left; by destruct cur).
      by rewrite <- app_assoc.
    + rewrite isspace_space in Hs. bool_to_Prop.
      destruct Hh as [Hcur | Hh]; [| by specialize (Hh space eq_refl)].
      destruct y as [| c' y]; [by specialize (Hl space eq_refl) |].
      assert (no_space_at (head (c' :: y))) as Hh'.
      { intros ? [= <-]. rewrite single_spaced_cons in *.
        by destruct (isspace c'). }
      specialize (IH true [] ltac:(done) Hl' (or_intror Hh')). cbn [app] in IH.
      rewrite (word_runs_from_non_word cur space) by done.
      destruct cur as [| x cur]; [done |].
      rewrite join_cons; [by rewrite <- IH |].
      intros E. by rewrite E in IH.
Qed.

(** X4: the Normalizer returns the maximal runs of ideographs and ASCII
    letters of its input, in their order, with one space between every
    two. *)
Theorem preprocess_text_word_runs (x : text) :
  preprocess_text x = join [space] (word_runs x).
Proof.
  rewrite <- word_runs_preprocess_text.
  destruct (preprocess_text_normalized x) as [Hc Hs Hh Hl].
  apply (normalized_runs false [] _ Hc Hs Hl). by right.
Qed.

Example word_runs_sample :
  word_runs (lit "  Hello, 世界!  <b>x1y</b> ") =
  [lit "Hello"; lit "世界"; lit "b"; lit "x"; lit "y"; lit "b"].
Proof. vm_compute. reflexivity. Qed.

Lemma filter_word_re_sub_char t :
  filter (λ c, is_word_char c = true) (re_sub_char non_word_pattern space t) =
  filter (λ c, is_word_char c = true) t.
Proof.
  unfold re_sub_char. induction t as [| c t IH]; [done |]. cbn [map].
  destruct (non_word_pattern c) eqn:E.
  - rewrite !filter_cons_False; [done | | done].
    by rewrite (pattern_not_word c E).
  - by rewrite !filter_cons, IH.
Qed.

Lemma filter_word_re_sub_runs b t :
  filter (λ c, is_word_char c = true) (re_sub_runs_from isspace space b t) =
  filter (λ c, is_word_char c = true) t.
Proof.
  revert b. induction t as [| c t IH]; intros b; [done |]. cbn [re_sub_runs_from].
  destruct (isspace c) eqn:E.
  - rewrite (filter_cons_False _ c) by by rewrite (space_not_word c E).
    destruct b; [done |]. by rewrite filter_cons_False.
  - by rewrite !filter_cons, IH.
Qed.

Lemma filter_word_lstrip t :
  filter (λ c, is_word_char c = true) (lstrip t) = filter (λ c, is_word_char c = true) t.
Proof.
  induction t as [| c t IH]; [done |]. cbn [lstrip]. destruct (isspace c) eqn:E; [| done].
  by rewrite filter_cons_False by by rewrite (space_not_word c E).
Qed.

Lemma filter_word_rstrip t :
  filter (λ c, is_word_char c = true) (rstrip t) = filter (λ c, is_word_char c = true) t.
Proof.
  induction t as [| c t IH]; [done |]. cbn [rstrip].
  destruct (rstrip t) as [| c' r] eqn:Er.
  - rewrite (filter_cons _ c t), <- IH. destruct (isspace c) eqn:E; [| done].
    by rewrite decide_False by by rewrite (space_not_word c E).
  - by rewrite (filter_cons _ c (c' :: r)), (filter_cons _ c t), IH.
Qed.

Lemma filter_word_preprocess_text x :
  filter (λ c, is_word_char c = true) (preprocess_text x) =
  filter (λ c, is_word_char c = true) x.
Proof.
  unfold preprocess_text, strip, re_sub_runs.
  by rewrite filter_word_lstrip, filter_word_rstrip, filter_word_re_sub_runs,
    filter_word_re_sub_char.
Qed.

(** X5: the Normalizer keeps every ideograph and every ASCII letter of its
    input, in their order, and adds none: what it removes or inserts are
    other characters only. *)
Theorem preprocess_text_keeps_words (x : text) :
  filter (λ c, is_word_char c = true) (preprocess_text x) =
  filter (λ c, is_word_char c = true) x.
Proof. apply filter_word_preprocess_text. Qed.

(** X6: the Normalizer returns the empty text exactly for the texts that
    hold no ideograph and no ASCII letter. *)
Theorem preprocess_text_empty_iff (x : text) :
  preprocess_text x = [] ↔ Forall (λ c, is_word_char c = false) x.
Proof.
  pose proof (filter_word_preprocess_text x) as Hk. split.
  - intros E. rewrite E, filter_nil in Hk. apply Forall_forall. intros c Hc.
    destruct (is_word_char c) eqn:Hw; [| done].
    assert (c ∈ filter (λ c, is_word_char c = true) x) as Hin
      by by apply list_elem_of_filter.
    rewrite <- Hk in Hin. by apply elem_of_nil in Hin.
  - intros Hx. rewrite (filter_none _ x) in Hk.
    2: { eapply Forall_impl; [exact Hx |]. intros c Hc. by rewrite Hc. }
    destruct (preprocess_text_normalized x) as [Hc _ Hh _].
    destruct (preprocess_text x) as [| c y]; [done |].
    apply Forall_cons in Hc as [[Hw | ->] _].
    + by rewrite filter_cons_True in Hk.
    + by specialize (Hh space eq_refl).
Qed.

(** ** The Extractor on blank documents *)

Lemma strip_empty_iff s : strip s = [] ↔ Forall (λ c, isspace c = true) s.
Proof.
  split; [| apply strip_all_space]. intros E.
  destruct (strip_trims s) as [(l & r & Hs & Hl & Hr) _].
  rewrite E in Hs. rewrite Hs. by apply Forall_app.
Qed.

Lemma join_nil sep (l : list text) :
  Forall (λ s, s ≠ []) l → join sep l = [] → l = [].
Proof.
  destruct l as [| p [| q ps]]; [done | |].
  - cbn. intros [Hp _]%Forall_cons. done.
  - intros [Hp _]%Forall_cons. cbn. by destruct p.
Qed.

(** X7: the Extractor returns the empty text exactly when the document has
    no body element or every string of class [NavigableString] or [CData]
    under its first body element holds whitespace only; the strings of the
    other classes (comments, the text of script and style elements, ...) do
    not count. *)
Theorem body_text_empty_iff (soup : list node) :
  body_text soup = [] ↔
  match head (filter (λ x, tag_named (lit "body") x) (nodes_of soup)) with
  | Some body =>
      Forall (λ s, Forall (λ c, isspace c = true) s) (omap text_of (descendants body))
  | None => True
  end.
Proof.
  unfold body_text. rewrite find_nodes.
  destruct (head _) as [body |]; [| done].
  unfold get_text_strip. rewrite descendant_strings_text.
  generalize (omap text_of (descendants body)). intros strs. split.
  - intros E. apply join_nil in E.
    2: { apply Forall_forall. by intros s [Hs _]%list_elem_of_filter. }
    apply Forall_forall. intros s Hs. apply strip_empty_iff.
    destruct (decide (strip s = [])) as [| Hne]; [done |].
    assert (strip s ∈ filter (λ s, s ≠ []) (map strip strs)) as Hin.
    { apply list_elem_of_filter. split; [done |]. by apply list_elem_of_fmap_2. }
    rewrite E in Hin. by apply elem_of_nil in Hin.
  - intros Hall. rewrite filter_none; [done |].
    apply Forall_forall. intros s' (s & -> & Hs)%list_elem_of_fmap Hne. apply Hne.
    apply strip_empty_iff. by eapply Forall_forall in Hall.
Qed.

(** ** Chart builders on the chart types they know *)

Lemma chart_mapping_lookup df chart_type fig :
  (chart_type, fig) ∈
    [ (lit "垂直条形图", px_bar df (lit "词语") (lit "频率") None (lit "垂直条形图"));
      (lit "水平条形图", px_bar df (lit "频率") (lit "词语") (Some (lit "h")) (lit "水平条形图"));
      (lit "饼图", px_pie df (lit "频率") (lit "词语") (lit "饼图"));
      (lit "折线图", px_line df (lit "词语") (lit "频率") (lit "折线图"));
      (lit "散点图", px_scatter df (lit "词语") (lit "频率") (lit "频率") (lit "散点图")) ] →
  chart_mapping df !! chart_type = Some fig.
Proof.
  intros H. unfold chart_mapping. apply elem_of_list_to_map_1; [| exact H].
  apply (bool_decide_unpack _). by vm_compute.
Qed.

Lemma create_plotly_chart_known chart_type word_counts top_n :
  chart_type ∈ [lit "垂直条形图"; lit "水平条形图"; lit "饼图"; lit "折线图"; lit "散点图"] →
  most_common top_n word_counts ≠ [] →
  ∃ fig, create_plotly_chart chart_type word_counts top_n = inr (Some fig) ∧
         figure_title fig = chart_type ∧
         figure_frame fig =
           Some {| df_columns := [lit "词语"; lit "频率"];
                   df_rows := most_common top_n word_counts |}.
Proof.
  intros H Hne. rewrite create_plotly_chart_run, decide_False by done.
  repeat (apply elem_of_cons in H as [-> | H]); [| | | | | by apply elem_of_nil in H];
    eexists; (split; [refine (f_equal inr _); apply chart_mapping_lookup |]).
  1: apply list_elem_of_here. 1: by split.
  1: apply list_elem_of_further, list_elem_of_here. 1: by split.
  1: do 2 apply list_elem_of_further; apply list_elem_of_here. 1: by split.
  1: do 3 apply list_elem_of_further; apply list_elem_of_here. 1: by split.
  1: do 4 apply list_elem_of_further; apply list_elem_of_here. by split.
Qed.

(** X8: when the frequency map has top-N rows, [create_plotly_chart]
    returns, for each of the five chart types it knows, a chart whose title
    is the chart type and whose data are these rows, under the columns 词语
    and 频率; it returns a chart for these chart types and such maps only.
    Without top-N rows it raises [ValueError], whatever the chart type. *)
Theorem create_plotly_chart_recognized
    (chart_type : text) (word_counts : counter) (top_n : nat) :
  let known := [lit "垂直条形图"; lit "水平条形图"; lit "饼图"; lit "折线图"; lit "散点图"] in
  (most_common top_n word_counts ≠ [] → chart_type ∈ known →
   ∃ fig, create_plotly_chart chart_type word_counts top_n = inr (Some fig) ∧
          figure_title fig = chart_type ∧
          figure_frame fig =
            Some {| df_columns := [lit "词语"; lit "频率"];
                    df_rows := most_common top_n word_counts |}) ∧
  (∀ fig, create_plotly_chart chart_type word_counts top_n = inr (Some fig) →
          chart_type ∈ known ∧ most_common top_n word_counts ≠ []) ∧
  (most_common top_n word_counts = [] →
   create_plotly_chart chart_type word_counts top_n = inl ValueError).
Proof.
  intros known. split_and!.
  - intros Hne H. by apply create_plotly_chart_known.
  - intros fig. rewrite create_plotly_chart_run. case_decide as Hne; [done |].
    intros [= Hfig]. split; [| done].
    destruct (decide (chart_type ∈ known)) as [| Hno]; [done |].
    pose proof (create_plotly_chart_None _ _ _ Hno Hne) as Hnone.
    rewrite create_plotly_chart_run, decide_False in Hnone by done. congruence.
  - intros He. by rewrite create_plotly_chart_run, decide_True.
Qed.

Lemma create_plotly_radar_chart_None word_counts top_n :
  create_plotly_radar_chart word_counts top_n = None ↔ word_counts = [] ∨ top_n = 0%nat.
Proof. unfold create_plotly_radar_chart. rewrite <- most_common_nil. by case_match. Qed.

Lemma render_word_cloud_run font word_counts :
  render_word_cloud font word_counts =
  if decide (word_counts = []) then inl ValueError
  else if font then inr (word_cloud word_counts) else inl OSError.
Proof.
  unfold render_word_cloud, generate_word_cloud, mbind, exc_bind.
  case_decide; [done |]. by destruct font.
Qed.

(** What [main] builds for each chart type of the select box. *)
Lemma main_chart_cases font chart_type word_counts :
  chart_type ∈ chart_types →
  (chart_type = lit "词云" ∧
   main_chart font chart_type word_counts = render_word_cloud font word_counts) ∨
  (chart_type = lit "面积图" ∧
   main_chart font chart_type word_counts
     = inr (altair_chart (create_altair_chart word_counts 20))) ∨
  (chart_type = lit "雷达图" ∧
   main_chart font chart_type word_counts
     = inr (plotly_chart (create_plotly_radar_chart word_counts 10))) ∨
  (chart_type ≠ lit "词云" ∧ chart_type ≠ lit "面积图" ∧ chart_type ≠ lit "雷达图" ∧
   ((word_counts = [] ∧ main_chart font chart_type word_counts = inl ValueError) ∨
    (word_counts ≠ [] ∧
     ∃ fig, main_chart font chart_type word_counts = inr (plotly_chart (Some fig))))).
Proof.
  intros H. unfold chart_types in H.
  repeat (apply elem_of_cons in H as [-> | H]); [| | | | | | | | by apply elem_of_nil in H].
  1: { left. split; [done |]. unfold main_chart. by rewrite decide_True. }
  6: { right. right. left. split; [done |]. unfold main_chart.
       rewrite decide_False by by vm_compute. rewrite decide_False by by vm_compute.
       by rewrite decide_True. }
  6: { right. left. split; [done |]. unfold main_chart.
       rewrite decide_False by by vm_compute. by rewrite decide_True. }
  all: right; right; right.
  all: split; [by vm_compute |]; split; [by vm_compute |]; split; [by vm_compute |].
  all: unfold main_chart.
  all: rewrite decide_False by by vm_compute.
  all: rewrite decide_False by by vm_compute.
  all: rewrite decide_False by by vm_compute.
  all: destruct (decide (word_counts = [])) as [-> | Hne]; [left | right].
  all: split; [done |].
  1, 3, 5, 7, 9: by rewrite create_plotly_chart_run, decide_True.
  all: match goal with
       | |- ∃ fig, (create_plotly_chart ?ct _ _ ≫= _) = _ =>
           destruct (create_plotly_chart_known ct word_counts 20) as (fig & Hfig & _)
       end.
  all: try (rewrite most_common_nil; intros [? | ?]; done).
  1: apply list_elem_of_here.
  2: apply list_elem_of_further, list_elem_of_here.
  3: do 2 apply list_elem_of_further; apply list_elem_of_here.
  4: do 3 apply list_elem_of_further; apply list_elem_of_here.
  5: do 4 apply list_elem_of_further; apply list_elem_of_here.
  all: exists fig; by rewrite Hfig.
Qed.

(** X9: for the chart types of the select box, [main] hands an absent
    chart to the display in one case only: the radar chart of an empty
    frequency map. *)
Theorem main_chart_absent_iff (font : bool) (chart_type : text) (word_counts : counter) :
  chart_type ∈ chart_types →
  (main_chart font chart_type word_counts = inr (plotly_chart None) ↔
   chart_type = lit "雷达图" ∧ word_counts = []).
Proof.
  intros H.
  destruct (main_chart_cases font chart_type word_counts H)
    as [[-> ->] | [[-> ->] | [[-> ->] | (H1 & H2 & H3 & [[-> ->] | [Hne [fig ->]]])]]].
  - rewrite render_word_cloud_run. split.
    + case_decide; [done |]. by destruct font.
    + intros [E _]. vm_compute in E. discriminate E.
  - split; [done |]. intros [E _]. vm_compute in E. discriminate E.
  - split.
    + intros [= E]. apply create_plotly_radar_chart_None in E as [-> | E]; done.
    + intros [_ ->]. done.
  - split; [done |]. by intros [? _].
  - split; [done |]. by intros [? _].
Qed.

Lemma main_chart_absent_iff_witness :
  main_chart true (lit "雷达图") [] = inr (plotly_chart None) ↔
  lit "雷达图" = lit "雷达图" ∧ @nil (text * nat) = [].
Proof.
  apply (main_chart_absent_iff true (lit "雷达图") []).
  unfold chart_types. do 6 apply list_elem_of_further. apply list_elem_of_here.
Defined.

(** ** main *)

Example listing_line_sample : listing_line (lit "数据", 12%nat) = lit "数据: 12".
Proof. vm_compute. reflexivity. Qed.

Lemma filter_chart_writes (f : text * nat → text) (l : counter) :
  filter (λ e, is_chart e = true) (st_write ∘ f <$> l) = [].
Proof.
  induction l as [| a l IH]; [done |]. cbn [fmap list_fmap].
  by rewrite filter_cons_False.
Qed.

Lemma filter_write_writes (f : text * nat → text) (l : counter) :
  length (filter (λ e, is_write e = true) (st_write ∘ f <$> l)) = length l.
Proof.
  induction l as [| a l IH]; [done |]. cbn [fmap list_fmap].
  rewrite filter_cons_True by done. cbn. by rewrite <- IH.
Qed.

(** X10: without a URL, or when the button was not pressed, [main] sends no
    request, ends without an exception, writes no listing and shows no
    chart. *)
Theorem main_idle
    (prepare_url : text → exn + text) (redirect_url : text → text → text)
    (srv : server) (decode : option text → list N → text)
    (html_parser : text → list node) (cut : text → list text)
    (stopwords_txt : option (list text)) (font : bool)
    (url chart_type : text) (button : bool) (log : list Request) :
  url = [] ∨ button = false →
  ∃ calls,
    main prepare_url redirect_url srv decode html_parser cut stopwords_txt font
      url chart_type button log
      = (calls, None, log) ∧
    Forall (λ e, is_chart e = false ∧ is_write e = false) calls.
Proof.
  intros H. unfold main. destruct (decide (url = [])) as [| Hurl].
  - eexists. split; [reflexivity |]. by repeat constructor.
  - destruct H as [| ->]; [done |]. eexists. split; [reflexivity |]. by repeat constructor.
Qed.

Lemma main_idle_witness :
  ∃ calls,
    main inr (λ _ l, l) (λ _, inl ConnectionError) (λ _ b, b) (λ _, []) cut_chars
      (Some []) true [] (lit "词云") true []
      = (calls, None, []) ∧
    Forall (λ e, is_chart e = false ∧ is_write e = false) calls.
Proof.
  apply (main_idle inr (λ _ l, l) (λ _, inl ConnectionError) (λ _ b, b) (λ _, [])
           cut_chars (Some []) true [] (lit "词云") true []).
  by left.
Defined.

(** The calls up to the end of the listing hold the heading and one line for
    each of the at most 20 most frequent words, and no chart. *)
Lemma listing_calls (page : list st) (heading : text) (word_counts : counter) :
  Forall (λ e, is_chart e = false ∧ is_write e = false) page →
  let calls :=
    page ++ [st_write heading] ++ (st_write ∘ listing_line <$> most_common 20 word_counts) in
  length (filter (λ e, is_write e = true) calls) = S (Nat.min 20 (length word_counts)) ∧
  filter (λ e, is_chart e = true) calls = [].
Proof.
  intros Hpage calls. subst calls.
  assert (filter (λ e, is_write e = true) page = []) as Hw.
  { apply filter_none. eapply Forall_impl; [exact Hpage |]. intros e [_ He]. by rewrite He. }
  assert (filter (λ e, is_chart e = true) page = []) as Hc.
  { apply filter_none. eapply Forall_impl; [exact Hpage |]. intros e [He _]. by rewrite He. }
  rewrite !filter_app, Hw, Hc, filter_chart_writes, !length_app, filter_write_writes,
    most_common_length.
  rewrite filter_cons_True by done. rewrite filter_cons_False by done. done.
Qed.

(** The chart stage for a chart type of the select box: either a chart is
    built and displayed, or an exception ends the run. *)
Lemma main_chart_outcome font chart_type word_counts :
  chart_type ∈ chart_types →
  let shows :=
    chart_type = lit "面积图" ∨
    (word_counts ≠ [] ∧ (chart_type = lit "词云" → font = true)) in
  (shows ∧ ∃ c, main_chart font chart_type word_counts = inr c ∧ st_display c = None) ∨
  (¬ shows ∧
   ∃ e, (main_chart font chart_type word_counts = inl e ∨
         ∃ c, main_chart font chart_type word_counts = inr c ∧ st_display c = Some e) ∧
        (word_counts = [] → chart_type = lit "雷达图" → e = DisplayError) ∧
        (word_counts = [] → chart_type ≠ lit "面积图" → chart_type ≠ lit "雷达图" →
         e = ValueError) ∧
        (word_counts ≠ [] → chart_type = lit "词云" → font = false → e = OSError)).
Proof.
  intros H shows. subst shows.
  assert (lit "词云" ≠ lit "面积图") as N1 by by vm_compute.
  assert (lit "词云" ≠ lit "雷达图") as N2 by by vm_compute.
  assert (lit "面积图" ≠ lit "雷达图") as N3 by by vm_compute.
  pose proof (main_chart_cases font chart_type word_counts H) as C. clear H.
  revert C N1 N2 N3.
  generalize (main_chart font chart_type word_counts).
  generalize (lit "词云") (lit "面积图") (lit "雷达图").
  intros cloud area radar mc C N1 N2 N3.
  destruct C
    as [[-> ->] | [[-> ->] | [[-> ->] | (H1 & H2 & H3 & [[-> ->] | [Hne [fig ->]]])]]].
  - rewrite render_word_cloud_run. destruct (decide (word_counts = [])) as [-> | Hne].
    + right. split; [intros [E | [E _]]; [exact (N1 E) | exact (E eq_refl)] |].
      exists ValueError. split; [left; reflexivity |].
      split; [intros _ E; destruct (N2 E) |]. split; [reflexivity |].
      intros E. destruct (E eq_refl).
    + destruct font.
      * left. split; [right; split; [exact Hne | reflexivity] |].
        eexists. split; reflexivity.
      * right. split; [intros [E | [_ Hf]]; [exact (N1 E) | discriminate (Hf eq_refl)] |].
        exists OSError. split; [left; reflexivity |].
        split; [intros E; destruct (Hne E) |]. split; [intros E; destruct (Hne E) |].
        reflexivity.
  - left. split; [left; reflexivity |]. eexists. split; reflexivity.
  - destruct (decide (word_counts = [])) as [-> | Hne].
    + right. split; [intros [E | [E _]]; [exact (N3 (eq_sym E)) | exact (E eq_refl)] |].
      exists DisplayError. split.
      { right. eexists. split; [reflexivity |].
        replace (create_plotly_radar_chart [] 10) with (@None figure); [reflexivity |].
        symmetry. apply create_plotly_radar_chart_None. left. reflexivity. }
      split; [reflexivity |]. split; [intros _ _ E; destruct (E eq_refl) |].
      intros E. destruct (E eq_refl).
    + left. split; [right; split; [exact Hne |]; intros E; destruct (N2 (eq_sym E)) |].
      eexists. split; [reflexivity |].
      destruct (create_plotly_radar_chart word_counts 10) eqn:E; [reflexivity |].
      apply create_plotly_radar_chart_None in E as [E | E]; [destruct (Hne E) | discriminate E].
  - right. split; [intros [E | [E _]]; [exact (H2 E) | exact (E eq_refl)] |].
    exists ValueError. split; [left; reflexivity |].
    split; [intros _ E; destruct (H3 E) |]. split; [reflexivity |].
    intros E. destruct (E eq_refl).
  - left. split; [right; split; [exact Hne |]; intros E; destruct (H1 E) |].
    eexists. split; reflexivity.
Qed.



(** X12: in [main] a word is counted exactly when the segmenter yielded it
    for the normalized text of the page, it is not blank, and no line of the
    stopword file, trimmed, equals it.  As the text is normalized first, the
    counted words hold ideographs and ASCII letters only, for a segmenter
    that cuts its input into pieces, whitespace apart from the other
    characters. *)
Theorem main_word_counts_keys
    (cut : text → list text) (stopwords_txt : list text) (t : text) (k : text) :
  let processed_text := preprocess_text t in
  let word_counts := main_word_counts cut stopwords_txt t in
  (k ∈ word_counts.*1 ↔
   k ∈ cut processed_text ∧ strip k ≠ [] ∧
   ∀ line, line ∈ stopwords_txt → strip line ≠ k) ∧
  (concat (cut processed_text) = processed_text →
   (∀ w, w ∈ cut processed_text →
      Exists (λ c, isspace c = true) w → Forall (λ c, isspace c = true) w) →
   k ∈ word_counts.*1 → word_only k).
Proof.
  intros p word_counts.
  assert (k ∈ word_counts.*1 ↔
          k ∈ cut p ∧ strip k ≠ [] ∧ ∀ line, line ∈ stopwords_txt → strip line ≠ k) as Hkey.
  { unfold word_counts, main_word_counts, segment_and_count. fold p.
    rewrite Counter_tally, tally_keys, list_elem_of_filter, elem_of_list_to_set.
    rewrite list_elem_of_fmap. split.
    - intros [[Hs Hno] Hin]. split_and!; [done.. |]. intros line Hl E. apply Hno. eauto.
    - intros (Hin & Hs & Hno). split_and!; [done | | done].
      intros (line & -> & Hl). by eapply Hno. }
  split; [exact Hkey |]. intros Hpieces Hapart [Hin [Hs _]]%Hkey.
  pose proof (kept_word_no_space k (Hapart k Hin) Hs) as Hk.
  destruct (preprocess_text_normalized t) as [Hc _ _ _]. fold p in Hc.
  apply Forall_forall. intros c Hck.
  assert (c ∈ p) as Hct by (rewrite <- Hpieces; by eapply elem_of_concat_pieces).
  eapply Forall_forall in Hc; [| exact Hct]. eapply Forall_forall in Hk; [| exact Hck].
  destruct Hc as [Hc | ->]; [| done]. apply orb_true_iff in Hc. tauto.
Qed.

(** ** The ends of the extracted text *)

Lemma join_head sep p (ps : list text) :
  p ≠ [] → head (join sep (p :: ps)) = head p.
Proof. intros Hp. destruct ps as [| q ps]; [done |]. cbn. by destruct p. Qed.

Lemma join_last sep (l : list text) :
  Forall (λ s, s ≠ []) l → last (join sep l) = mjoin (last <$> last l).
Proof.
  induction 1 as [| p l Hp Hl IH]; [done |].
  destruct l as [| q ps]; [done |].
  change (join sep (p :: q :: ps)) with (p ++ sep ++ join sep (q :: ps)).
  rewrite !last_app, last_cons_cons, <- IH.
  destruct (last (join sep (q :: ps))) eqn:E; [done |].
  apply last_None, join_nil in E; done.
Qed.

(** X13: the text the Extractor returns neither starts nor ends with a
    whitespace character. *)
Theorem body_text_trimmed (soup : list node) :
  no_space_at (head (body_text soup)) ∧ no_space_at (last (body_text soup)).
Proof.
  unfold body_text. destruct (find (lit "body") soup) as [body |]; [| by split; intros ?].
  unfold get_text_strip. generalize (descendant_strings body). intros strs.
  assert (Forall (λ s, s ≠ []) (filter (λ s, s ≠ []) (map strip strs))) as Hne.
  { apply Forall_forall. by intros s [Hs _]%list_elem_of_filter. }
  assert (∀ s, s ∈ filter (λ s, s ≠ []) (map strip strs) →
               no_space_at (head s) ∧ no_space_at (last s)) as Htrim.
  { intros s [_ (s0 & -> & _)%list_elem_of_fmap]%list_elem_of_filter.
    destruct (strip_trims s0) as (_ & ? & ?). done. }
  split.
  - destruct (filter _ _) as [| p ps]; [by intros ? |].
    apply Forall_cons in Hne as [Hp _]. rewrite join_head by done.
    apply Htrim. by left.
  - rewrite join_last by done.
    destruct (last (filter _ _)) as [p |] eqn:E; [| by intros ?].
    cbn. apply Htrim. by eapply last_Some_elem_of.
Qed.
